(** * shaka::Player (src/public/player.cc): the native bridge to the
      JavaScript player object, its sink commit protocol and its
      network-filter chain.

    The development has two parts.  The first part embeds the code of
    [Player::Impl] and of the helper class [LoadHelper]; the second part
    states and proves the properties. *)

From Stdlib Require Import String PrimFloat.
From stdpp Require Import base list strings.

(** ** Values shared by the whole file *)

(** [shaka::Error].  The class is declared in shaka/error.h; this file only
    ever builds one from a message ([Error("...")]) or receives one from a
    failed call, so the message is all that is kept. *)
Record Error := mkError { message : string }.

#[global] Instance Error_eq_dec : EqDecision Error.
Proof. solve_decision. Defined.

(** [Converter<void>::variant_type], that is [variant<monostate, Error>]:
    the outcome of a call that returns nothing. *)
Inductive variant_type :=
| monostate
| holds_Error (e : Error).

#[global] Instance variant_type_eq_dec : EqDecision variant_type.
Proof. solve_decision. Defined.

(** [holds_alternative<Error>(results)] *)
Definition holds_alternative_Error (results : variant_type) : bool :=
  match results with
  | holds_Error _ => true
  | monostate => false
  end.

(** ** LoadHelper: the start-time argument of load() *)

Module LoadHelper.

(** The JavaScript values [Player::Load] hands to the engine. *)
Inductive JsValue :=
| JsUndefined
| JsNumber (d : float)
| JsString (s : string).

(** [::shaka::ToJsValue(double)]: a C++ double becomes the JavaScript
    number with the same binary64 value. *)
Definition ToJsValue_double (value : float) : JsValue := JsNumber value.

(** [::shaka::ToJsValue(const std::string&)] *)
Definition ToJsValue_string (value : string) : JsValue := JsString value.

(** [class LoadHelper : public GenericConverter], holding [value_]. *)
Record t := LoadHelper { value_ : float }.

(** [isnan(value_)] on a binary64 value. *)
Definition isnan (d : float) : bool := PrimFloat.is_nan d.

(** [LoadHelper::ToJsValue]:
    [return !isnan(value_) ? ::shaka::ToJsValue(value_) : JsUndefined();] *)
Definition ToJsValue (h : t) : JsValue :=
  if negb (isnan (value_ h)) then ToJsValue_double (value_ h) else JsUndefined.

(** [Player::Load]: the method name and the converted argument list of
    [CallMethod<void>("load", manifest_uri, LoadHelper(start_time), mime_type)]. *)
Definition Load (manifest_uri : string) (start_time : float) (mime_type : string)
  : string * list JsValue :=
  ("load"%string,
   [ToJsValue_string manifest_uri;
    ToJsValue (LoadHelper start_time);
    ToJsValue_string mime_type]).

End LoadHelper.

(** ** The filter registry: [filters_] under [filters_mutex_] *)

Module Registry.

(** The identity (address) of a caller-owned [NetworkFilters] object. *)
Definition NetworkFilters := nat.

(** A [NetworkFilters*]: [None] is [nullptr]. *)
Definition ptr := option NetworkFilters.
Definition nullptr : ptr := None.

#[global] Instance ptr_eq_dec : EqDecision ptr.
Proof. unfold ptr, NetworkFilters. apply _. Defined.

(** [AddNetworkFilters]: [filters_.emplace_back(filters)]. *)
Definition AddNetworkFilters (filters : ptr) (filters_ : list ptr) : list ptr :=
  filters_ ++ [filters].

(** [RemoveNetworkFilters]:
    [for (NetworkFilters*& elem : filters_) if (elem == filters) elem = nullptr;]
    No node is erased. *)
Fixpoint RemoveNetworkFilters (filters : ptr) (filters_ : list ptr) : list ptr :=
  match filters_ with
  | [] => []
  | elem :: rest =>
      (if decide (elem = filters) then nullptr else elem)
        :: RemoveNetworkFilters filters rest
  end.

(** The live entries, in registration order. *)
Definition live (filters_ : list ptr) : list NetworkFilters :=
  omap id filters_.

End Registry.

(** ** The filter chain: [StepNetworkFilter] and its continuation *)

Module Chain.
Import Registry.

(** What a run does, in program order.  A [std::list] iterator names a
    node; nodes are only ever appended at the back and never erased, so
    the node reached after [n] increments from [begin()] is named by its
    position [n], and [end()] by the current length. *)
Inductive event :=
| EvLock                                   (* std::unique_lock<Mutex> lock(filters_mutex_) *)
| EvUnlock                                 (* the lock goes out of scope *)
| EvAdd (p : ptr)                          (* filters_.emplace_back(p) *)
| EvRemove (p : ptr)                       (* the tombstoning loop for p *)
| EvOnFilter (pos : nat) (f : NetworkFilters)  (* on_filter called on the entry at it, with (type, obj.get()) *)
| EvHandleNetworkFuture (pos : nat)        (* HandleNetworkFuture(results, future, continuation) *)
| EvFinalize                               (* obj->Finalize() *)
| EvResolveWith                            (* results.ResolveWith(JsUndefined(), false) *)
| EvRejectWith (e : Error).                (* the promise is rejected with e *)

#[global] Instance event_eq_dec : EqDecision event.
Proof. solve_decision. Defined.

(** Where a run stands between two calls of [StepNetworkFilter]. *)
Inductive chain_status :=
| Waiting (it : nat) (f : NetworkFilters)  (* the future of the filter at it is outstanding *)
| Resolved                                 (* promise resolved with undefined *)
| Rejected (e : Error).                    (* promise rejected *)

(** The loop of [StepNetworkFilter] over the nodes from [it] on:
    [for (; it != filters_.end(); it++) { if (!*it) continue; ...; return; }] *)
Fixpoint scan (rest : list ptr) (it : nat) : option (nat * NetworkFilters) :=
  match rest with
  | [] => None
  | None :: rest' => scan rest' (S it)
  | Some f :: _ => Some (it, f)
  end.

(** One call of [StepNetworkFilter(type, obj, it, on_filter, results)].
    Inside the lock's block the first live entry at or after [it] is
    called and its future handed to [HandleNetworkFuture] together with
    the continuation, and the function returns; when the loop runs off
    the end the block is left, then [Finalize] and [ResolveWith] are
    called. *)
Definition StepNetworkFilter (filters_ : list ptr) (it : nat)
  : list event * chain_status :=
  match scan (drop it filters_) it with
  | Some (pos, f) =>
      ([EvLock; EvOnFilter pos f; EvHandleNetworkFuture pos; EvUnlock],
       Waiting pos f)
  | None =>
      ([EvLock; EvUnlock; EvFinalize; EvResolveWith], Resolved)
  end.

(** What [HandleNetworkFuture] does once the filter's future is ready:
    one of the two things the spec names.  A helper that did both, or
    either one twice, is outside this type. *)
Inductive handled :=
| CallOnDone                 (* run the continuation it was given *)
| RejectPromise (e : Error). (* reject the promise, drop the continuation *)

(** Modelled from the spec: [HandleNetworkFuture] comes from one of the
    headers this file includes and is defined outside it.  "If a step
    fails, propagate the failure immediately as the chain's terminal
    result without visiting remaining filters"; "a filter returning a
    present Error aborts the chain with that error"; on success "schedule
    continuation at the next position". *)
Definition HandleNetworkFuture (r : option Error) : handled :=
  match r with
  | Some e => RejectPromise e
  | None => CallOnDone
  end.

(** The registry, everything done so far, and the state of the run. *)
Record run_state := mkRun {
  filters_ : list ptr;
  trace : list event;
  status : chain_status
}.

(** What can happen between two calls of [StepNetworkFilter]: any thread
    may add or remove filters, and the outstanding future may become
    ready with [r]. *)
Inductive action :=
| Add (p : ptr)
| Remove (p : ptr)
| Complete (r : option Error).

(** The request and response entry points registered by
    [AttachListeners]:
    [StepNetworkFilter(type, pub_request, filters_.begin(), ..., ret)].
    The code reads [begin()] before the lock is taken; the reading and
    the locked scan are one step here, so an add that falls between the
    two is not among the runs described. *)
Definition start (filters_0 : list ptr) : run_state :=
  let '(evs, st) := StepNetworkFilter filters_0 0 in
  mkRun filters_0 evs st.

(** The run as a machine, for either choice [handle] of
    [HandleNetworkFuture] once the future is ready.  The continuation
    captured by [StepNetworkFilter] is
    [StepNetworkFilter(type, obj, std::next(it), on_filter, results)];
    [std::next(it)] is read before the lock is taken, and the reading
    and the locked scan are one [Complete] step here, so an add that
    falls between the two is not among the runs described. *)
Section Machine.
Variable handle : option Error → handled.

Definition step_with (s : run_state) (a : action) : run_state :=
  match a with
  | Add p =>
      mkRun (AddNetworkFilters p (filters_ s))
            (trace s ++ [EvLock; EvAdd p; EvUnlock]) (status s)
  | Remove p =>
      mkRun (RemoveNetworkFilters p (filters_ s))
            (trace s ++ [EvLock; EvRemove p; EvUnlock]) (status s)
  | Complete r =>
      match status s with
      | Waiting it _ =>
          match handle r with
          | RejectPromise e =>
              mkRun (filters_ s) (trace s ++ [EvRejectWith e]) (Rejected e)
          | CallOnDone =>
              let '(evs, st) := StepNetworkFilter (filters_ s) (S it) in
              mkRun (filters_ s) (trace s ++ evs) st
          end
      | _ => s
      end
  end.

Definition run_with (sched : list action) (s : run_state) : run_state :=
  foldl step_with s sched.

End Machine.

(** The machine with [HandleNetworkFuture] as the spec has it. *)
Definition step : run_state → action → run_state :=
  step_with HandleNetworkFuture.

Definition run : list action → run_state → run_state :=
  run_with HandleNetworkFuture.

(** Readings of a trace. *)

(** The filters called, in call order. *)
Definition visited (t : list event) : list NetworkFilters :=
  omap (fun ev => match ev with EvOnFilter _ f => Some f | _ => None end) t.

(** How many times [Finalize] has been called. *)
Definition finalize_count (t : list event) : nat :=
  length (filter (fun ev => ev = EvFinalize) t).

(** The registry after the mutations recorded in [t]. *)
Fixpoint replay (reg : list ptr) (t : list event) : list ptr :=
  match t with
  | [] => reg
  | EvAdd p :: t' => replay (AddNetworkFilters p reg) t'
  | EvRemove p :: t' => replay (RemoveNetworkFilters p reg) t'
  | _ :: t' => replay reg t'
  end.

(** The position the next scan starts from: [r] while nothing has been
    called, [std::next] of the last position called afterwards. *)
Definition resume_from (r : nat) (t : list event) : nat :=
  foldl (fun r ev => match ev with EvOnFilter pos _ => S pos | _ => r end) r t.

(** For a whole run the first scan starts at [begin()]. *)
Definition resume_pos (t : list event) : nat := resume_from 0 t.

(** Whether [filters_mutex_] is held after the events of [t], when it was
    held or not ([h]) before them. *)
Definition held_from (h : bool) (t : list event) : bool :=
  foldl (fun h ev => match ev with EvLock => true | EvUnlock => false | _ => h end)
        h t.

Definition held (t : list event) : bool := held_from false t.

(** The traversal discipline read off a trace, event by event: with the
    registry [reg] and the next scan due to start at [r], every call is
    at a position from [r] on that holds the filter called, over
    tombstones only, and moves the start of the next scan just past it. *)
Fixpoint ordered_from (reg : list ptr) (r : nat) (t : list event) : Prop :=
  match t with
  | [] => True
  | EvAdd p :: t' => ordered_from (AddNetworkFilters p reg) r t'
  | EvRemove p :: t' => ordered_from (RemoveNetworkFilters p reg) r t'
  | EvOnFilter pos f :: t' =>
      r ≤ pos
      ∧ reg !! pos = Some (Some f)
      ∧ (∀ j, r ≤ j < pos → reg !! j = Some nullptr)
      ∧ ordered_from reg (S pos) t'
  | _ :: t' => ordered_from reg r t'
  end.

(** What the lock's scope has to be for an event to happen where the code
    puts it. *)
Definition lock_side (ev : event) (h : bool) : Prop :=
  match ev with
  | EvLock => h = false
  | EvUnlock | EvAdd _ | EvRemove _
  | EvOnFilter _ _ | EvHandleNetworkFuture _ => h = true
  | EvFinalize | EvResolveWith => h = false
  | EvRejectWith _ => True
  end.

(** Every event of [t] on its side of the lock, starting from [h]. *)
Fixpoint lock_scoped (h : bool) (t : list event) : Prop :=
  match t with
  | [] => True
  | ev :: t' => lock_side ev h ∧ lock_scoped (held_from h [ev]) t'
  end.

(** What holds of a run after any schedule. *)
Definition disciplined (filters_0 : list ptr) (s : run_state) : Prop :=
  filters_ s = replay filters_0 (trace s)
  ∧ ordered_from filters_0 0 (trace s)
  ∧ (∀ it f, status s = Waiting it f → resume_pos (trace s) = S it)
  ∧ lock_scoped false (trace s)
  ∧ held (trace s) = false.

End Chain.

(** ** The held sink: [video_], [Attach], [Detach], [SetVideoWhenResolved] *)

Module Sink.

(** A [media::MediaPlayer*] handed in by the caller. *)
Definition MediaPlayer := nat.

(** The identity of a [js::mse::HTMLVideoElement]: its rank among the
    elements this object has created with [new]. *)
Definition HTMLVideoElement := nat.

(** [RefPtr<js::mse::HTMLVideoElement>]: [None] is the null pointer. *)
Definition RefPtr := option HTMLVideoElement.

#[global] Instance RefPtr_eq_dec : EqDecision RefPtr.
Proof. unfold RefPtr, HTMLVideoElement. apply _. Defined.

(** What happens to the sinks, in program order. *)
Inductive sink_event :=
| SinkDetach (v : HTMLVideoElement)   (* video_->Detach() *)
| SinkAssign (video : RefPtr).        (* video_ = video *)

#[global] Instance sink_event_eq_dec : EqDecision sink_event.
Proof. solve_decision. Defined.

(** The future made by [CallMethod<void>(name, args...)]: the engine thread
    makes it ready, once, with the outcome of the remote call. *)
Record remote_call := mkCall {
  rc_method : string;
  rc_args : list RefPtr;
  rc_result : option variant_type
}.

(** The shared state made by [std::async(std::launch::deferred, then)]:
    the lambda with its captures [future] and [video], and the value it
    returned once it has run. *)
Record deferred := mkDeferred {
  df_future : nat;
  df_video : RefPtr;
  df_value : option variant_type
}.

(** The part of [Player::Impl] the sink protocol works on. *)
Record Impl := mkImpl {
  video_ : RefPtr;
  object_ : bool;                  (* whether Init has stored the JavaScript player *)
  elements : list MediaPlayer;     (* the HTMLVideoElements created so far *)
  calls : list remote_call;
  asyncs : list deferred;
  sink_log : list sink_event
}.

(** [new js::mse::HTMLVideoElement(EnsureGlobalDocument(), player)] *)
Definition new_HTMLVideoElement (player : MediaPlayer) (st : Impl)
  : Impl * HTMLVideoElement :=
  (mkImpl (video_ st) (object_ st) (elements st ++ [player])
          (calls st) (asyncs st) (sink_log st),
   length (elements st)).

(** [CallMethod<void>(name, args...)]: queues the call for the engine
    thread and returns its future. *)
Definition CallMethod (name : string) (args : list RefPtr) (st : Impl)
  : Impl * nat :=
  (mkImpl (video_ st) (object_ st) (elements st)
          (calls st ++ [mkCall name args None]) (asyncs st) (sink_log st),
   length (calls st)).

(** [SetVideoWhenResolved(future, video)]:
    [return std::async(std::launch::deferred, std::move(then));]
    Nothing runs here. *)
Definition SetVideoWhenResolved (future : nat) (video : RefPtr) (st : Impl)
  : Impl * nat :=
  (mkImpl (video_ st) (object_ st) (elements st) (calls st)
          (asyncs st ++ [mkDeferred future video None]) (sink_log st),
   length (asyncs st)).

(** [Player::Impl::Attach(player)] *)
Definition Attach (player : MediaPlayer) (st : Impl) : Impl * nat :=
  let '(st1, new_elem) := new_HTMLVideoElement player st in
  let '(st2, future) := CallMethod "attach" [Some new_elem] st1 in
  SetVideoWhenResolved future (Some new_elem) st2.

(** [Player::Impl::Detach()] *)
Definition Detach (st : Impl) : Impl * nat :=
  let '(st1, future) := CallMethod "detach" [] st in
  SetVideoWhenResolved future None st1.

(** [if (video_) video_->Detach();] *)
Definition detach_held (held : RefPtr) : list sink_event :=
  match held with
  | Some v => [SinkDetach v]
  | None => []
  end.

(** The body of the lambda [then] after [future.get()] returned [results]:
    [if (!holds_alternative<Error>(results)) {]
    [  if (video_) video_->Detach();  video_ = video; }]
    [return results;] *)
Definition then_ (results : variant_type) (video : RefPtr) (st : Impl)
  : Impl * variant_type :=
  if negb (holds_alternative_Error results) then
    (mkImpl video (object_ st) (elements st) (calls st) (asyncs st)
            (sink_log st ++ detach_held (video_ st) ++ [SinkAssign video]),
     results)
  else (st, results).

(** The engine thread makes the future of a call ready; a future is made
    ready once. *)
Definition resolve (call : nat) (r : variant_type) (st : Impl) : Impl :=
  match calls st !! call with
  | Some c =>
      match rc_result c with
      | None =>
          mkImpl (video_ st) (object_ st) (elements st)
                 (<[call := mkCall (rc_method c) (rc_args c) (Some r)]> (calls st))
                 (asyncs st) (sink_log st)
      | Some _ => st
      end
  | None => st
  end.

(** [get()] on the future returned by [Attach] or [Detach], at the moment
    the caller comes out of it.  The first [get()] runs the deferred
    lambda, whose first statement [future.get()] blocks until the remote
    call is ready: [None] stands for a caller still blocked there, which
    has done nothing yet.  A later [get()] returns the stored value. *)
Definition get (fut : nat) (st : Impl) : option (Impl * variant_type) :=
  match asyncs st !! fut with
  | None => None
  | Some d =>
      match df_value d with
      | Some r => Some (st, r)
      | None =>
          match calls st !! df_future d with
          | Some (mkCall _ _ (Some results)) =>
              let '(st1, r) := then_ results (df_video d) st in
              Some (mkImpl (video_ st1) (object_ st1) (elements st1) (calls st1)
                           (<[fut := mkDeferred (df_future d) (df_video d) (Some r)]>
                              (asyncs st1))
                           (sink_log st1),
                    r)
          | _ => None
          end
      end
  end.

(** The two operations of the claim. *)
Inductive op :=
| OpAttach (player : MediaPlayer)
| OpDetach.

Definition issue (o : op) (st : Impl) : Impl * nat :=
  match o with
  | OpAttach player => Attach player st
  | OpDetach => Detach st
  end.

(** The sink the operation asks for: the element [Attach] creates, or none. *)
Definition requested (o : op) (st : Impl) : RefPtr :=
  match o with
  | OpAttach _ => Some (length (elements st))
  | OpDetach => None
  end.

(** What can happen to the object, from any thread. *)
Inductive action :=
| Issue (o : op)
| EngineResolves (call : nat) (r : variant_type)
| FutureGet (fut : nat).

Definition step (st : Impl) (a : action) : Impl :=
  match a with
  | Issue o => fst (issue o st)
  | EngineResolves call r => resolve call r st
  | FutureGet fut =>
      match get fut st with
      | Some (st1, _) => st1
      | None => st
      end
  end.

Definition run (acts : list action) (st : Impl) : Impl := foldl step st acts.

Definition is_get (a : action) : bool :=
  match a with
  | FutureGet _ => true
  | _ => false
  end.

(** A freshly constructed [Impl]. *)
Definition fresh : Impl := mkImpl None false [] [] [] [].

End Sink.

(** ** Construction: [Initialize] and [AttachListeners] *)

Module Init.
Import Sink.

(** [proto::ValueType], as far as this file looks at it: the code only
    asks whether the value is a function. *)
Inductive ValueType :=
| Undefined
| Function
| OtherValueType (tag : nat).

#[global] Instance ValueType_eq_dec : EqDecision ValueType.
Proof. solve_decision. Defined.

(** The steps of the initialization task, in program order. *)
Inductive init_event :=
| EvGetDescendant (path : list string)  (* GetDescendant(global_handle(), path) *)
| EvNewVideoElement (player : MediaPlayer)
| EvInvokeConstructor (argc : nat)      (* InvokeConstructor(ctor, argc, argv, &result) *)
| EvInit                                (* Init(UnsafeJsCast<JsObject>(result_or_except)) *)
| EvAttachEventListener (name : string)
| EvCallMethod (name : string).         (* CallMethod(name, ...).get() *)

#[global] Instance init_event_eq_dec : EqDecision init_event.
Proof. solve_decision. Defined.

(** What the JavaScript engine answers to each request of the task;
    [monostate] stands for every successful answer, whatever object it
    carries. *)
Record engine := mkEngine {
  shaka_Player_type : ValueType;            (* GetValueType of the value found at shaka.Player *)
  InvokeConstructor : nat → variant_type;   (* an Error is ConvertError(result_or_except) *)
  AttachEventListener : string → variant_type;
  CallMethod_result : string → variant_type
}.

(** What has been done, and how it ended. *)
Definition trial := (list init_event * variant_type)%type.

(** [const auto ret = a; if (holds_alternative<Error>(ret)) return get<Error>(ret);]
    followed by [k]. *)
Definition and_then (a k : trial) : trial :=
  match a with
  | (evs, monostate) => let '(evs', r) := k in (evs ++ evs', r)
  | (evs, holds_Error e) => (evs, holds_Error e)
  end.

Declare Scope trial_scope.
Delimit Scope trial_scope with trial.
Notation "a ;; k" := (and_then a k)
  (at level 100, k at level 200, right associativity) : trial_scope.

(** The macro [ATTACH(name, call)] *)
Definition ATTACH (env : engine) (name : string) : trial :=
  ([EvAttachEventListener name], AttachEventListener env name).

Definition call (env : engine) (name : string) : trial :=
  ([EvCallMethod name], CallMethod_result env name).

(** [Player::Impl::AttachListeners(client)] *)
Definition AttachListeners (env : engine) : trial :=
  (ATTACH env "error" ;;
   ATTACH env "buffering" ;;
   call env "getNetworkingEngine" ;;
   call env "registerRequestFilter" ;;
   call env "registerResponseFilter")%trial.

(** The callback of [Player::Impl::Initialize(client, player)], run as one
    task on the engine thread; [player] is [None] for a null pointer. *)
Definition Initialize (env : engine) (player : option MediaPlayer) (st : Impl)
  : Impl * trial :=
  if decide (shaka_Player_type env ≠ Function) then
    (st, ([EvGetDescendant ["shaka"; "Player"]],
          holds_Error (mkError "The constructor 'shaka.Player' is not found.")))
  else
    let '(st1, args, evs1) :=
      match player with
      | Some p =>
          let '(st', v) := new_HTMLVideoElement p st in
          (mkImpl (Some v) (object_ st') (elements st') (calls st')
                  (asyncs st') (sink_log st' ++ [SinkAssign (Some v)]),
           [Some v], [EvNewVideoElement p])
      | None => (st, [], [])
      end in
    let evs := [EvGetDescendant ["shaka"; "Player"]] ++ evs1
                 ++ [EvInvokeConstructor (length args)] in
    match InvokeConstructor env (length args) with
    | holds_Error e => (st1, (evs, holds_Error e))
    | monostate =>
        (mkImpl (video_ st1) true (elements st1) (calls st1) (asyncs st1)
                (sink_log st1),
         ((evs ++ [EvInit], monostate) ;; AttachListeners env)%trial)
    end.

(** The whole sequence of steps of a successful initialization. *)
Definition steps (player : option MediaPlayer) : list init_event :=
  [EvGetDescendant ["shaka"; "Player"]]
    ++ match player with Some p => [EvNewVideoElement p] | None => [] end
    ++ [EvInvokeConstructor (match player with Some _ => 1 | None => 0 end);
        EvInit;
        EvAttachEventListener "error";
        EvAttachEventListener "buffering";
        EvCallMethod "getNetworkingEngine";
        EvCallMethod "registerRequestFilter";
        EvCallMethod "registerResponseFilter"].

(** How a step ends with a given engine. *)
Definition answer (env : engine) (ev : init_event) : variant_type :=
  match ev with
  | EvGetDescendant _ =>
      if decide (shaka_Player_type env ≠ Function)
      then holds_Error (mkError "The constructor 'shaka.Player' is not found.")
      else monostate
  | EvNewVideoElement _ | EvInit => monostate
  | EvInvokeConstructor argc => InvokeConstructor env argc
  | EvAttachEventListener name => AttachEventListener env name
  | EvCallMethod name => CallMethod_result env name
  end.

(** An engine on which every step succeeds. *)
Definition engine_ok : engine :=
  mkEngine Function (fun _ => monostate) (fun _ => monostate) (fun _ => monostate).

(** An engine whose bundle lacks the constructor. *)
Definition engine_without_ctor : engine :=
  mkEngine Undefined (fun _ => monostate) (fun _ => monostate) (fun _ => monostate).

(** An engine that refuses the second listener. *)
Definition engine_no_buffering : engine :=
  mkEngine Function (fun _ => monostate)
    (fun name => if decide (name = "buffering"%string)
                 then holds_Error (mkError "no such event") else monostate)
    (fun _ => monostate).

End Init.

(** ** Further readings of a run of the chain *)

Module ChainHistory.
Import Registry Chain.

(** The calls of a trace with their positions, in call order. *)
Definition calls_of (t : list event) : list (nat * NetworkFilters) :=
  omap (fun ev => match ev with EvOnFilter pos f => Some (pos, f) | _ => None end) t.

(** The events that settle the promise of a run. *)
Definition is_settle (ev : event) : bool :=
  match ev with
  | EvResolveWith | EvRejectWith _ => true
  | _ => false
  end.

(** How many times the promise has been settled. *)
Definition settle_count (t : list event) : nat :=
  length (filter (fun ev => is_settle ev = true) t).

(** How many calls of [AddNetworkFilters] a schedule makes. *)
Fixpoint adds (sched : list action) : nat :=
  match sched with
  | [] => 0
  | Add _ :: sched' => S (adds sched')
  | _ :: sched' => adds sched'
  end.

(** Completeness read off a trace, event by event: with the registry
    [reg] and the calls [seen] so far, whenever [Finalize] is called every
    live entry of the registry has been called at its position. *)
Fixpoint all_called (reg : list ptr) (seen : list (nat * NetworkFilters))
    (t : list event) : Prop :=
  match t with
  | [] => True
  | EvAdd p :: t' => all_called (AddNetworkFilters p reg) seen t'
  | EvRemove p :: t' => all_called (RemoveNetworkFilters p reg) seen t'
  | EvOnFilter pos f :: t' => all_called reg (seen ++ [(pos, f)]) t'
  | EvFinalize :: t' =>
      (∀ j f, reg !! j = Some (Some f) → (j, f) ∈ seen) ∧ all_called reg seen t'
  | _ :: t' => all_called reg seen t'
  end.

(** What holds of a run after any schedule, besides [disciplined]: the
    next scan starts within the registry, every live entry behind that
    start has been called, and whenever [Finalize] was called no live
    entry was left uncalled. *)
Definition thorough (filters_0 : list ptr) (s : run_state) : Prop :=
  resume_pos (trace s) ≤ length (filters_ s)
  ∧ (∀ j f, j < resume_pos (trace s) → filters_ s !! j = Some (Some f) →
            (j, f) ∈ calls_of (trace s))
  ∧ all_called filters_0 [] (trace s).

(** The counts of a run that fit where it stands. *)
Definition settled_as (s : run_state) : Prop :=
  match status s with
  | Waiting _ _ => finalize_count (trace s) = 0 ∧ settle_count (trace s) = 0
  | Resolved => finalize_count (trace s) = 1 ∧ settle_count (trace s) = 1
  | Rejected _ => finalize_count (trace s) = 0 ∧ settle_count (trace s) = 1
  end.

(** Two runs that agree on the registry, on where they stand and on the
    filters called so far. *)
Definition same_run (s1 s2 : run_state) : Prop :=
  filters_ s1 = filters_ s2
  ∧ status s1 = status s2
  ∧ visited (trace s1) = visited (trace s2).

End ChainHistory.

(** ** The life of the sinks: history and destruction *)

Module SinkHistory.
Import Sink.


(** The elements that have received [Detach()], in order. *)
Definition detached (log : list sink_event) : list HTMLVideoElement :=
  omap (fun ev => match ev with SinkDetach v => Some v | _ => None end) log.

(** [Player::Impl::~Impl()]:
    [if (object_) CallMethod<void>("destroy").wait();]
    [if (video_) video_->Detach();]
    [r] is what the engine answers to destroy; [wait()] returns once the
    answer is there and drops it. *)
Definition destructor (r : variant_type) (st : Impl) : Impl :=
  let st1 :=
    if object_ st then
      let '(st', future) := CallMethod "destroy" [] st in
      resolve future r st'
    else st in
  mkImpl (video_ st1) (object_ st1) (elements st1) (calls st1) (asyncs st1)
         (sink_log st1 ++ detach_held (video_ st1)).


End SinkHistory.

(** * Properties *)

Section LoadHelperFacts.
Import LoadHelper.

Example ToJsValue_nan : ToJsValue (LoadHelper nan) = JsUndefined.
Proof. reflexivity. Qed.

Example ToJsValue_zero : ToJsValue (LoadHelper 0%float) = JsNumber 0%float.
Proof. reflexivity. Qed.

Example ToJsValue_infinity :
  ToJsValue (LoadHelper infinity) = JsNumber infinity.
Proof. reflexivity. Qed.

(** C7: for every double passed as the start time of [Load], the argument
    handed to the engine is undefined when the value is NaN and the
    number with that very value otherwise; the two string arguments are
    passed unchanged around it. *)
Theorem Load_start_time_conversion (manifest_uri mime_type : string) (start_time : float) :
  Load manifest_uri start_time mime_type =
    ("load"%string,
     [JsString manifest_uri;
      if PrimFloat.is_nan start_time then JsUndefined else JsNumber start_time;
      JsString mime_type]).
Proof.
  unfold Load, ToJsValue, isnan, ToJsValue_double, ToJsValue_string; simpl.
  destruct (PrimFloat.is_nan start_time); reflexivity.
Qed.

End LoadHelperFacts.

(** ** The registry *)

Section RegistryFacts.
Import Registry.

Example remove_twice_registered :
  RemoveNetworkFilters (Some 1) [Some 1; Some 2; Some 1] = [None; Some 2; None].
Proof. reflexivity. Qed.

Example remove_nullptr :
  RemoveNetworkFilters nullptr [Some 1; None; Some 2] = [Some 1; None; Some 2].
Proof. reflexivity. Qed.

Lemma RemoveNetworkFilters_length (f : ptr) (l : list ptr) :
  length (RemoveNetworkFilters f l) = length l.
Proof. induction l as [|elem rest IH]; simpl; [done | by rewrite IH]. Qed.

Lemma RemoveNetworkFilters_lookup (f : ptr) (l : list ptr) (i : nat) :
  RemoveNetworkFilters f l !! i =
    (fun elem => if decide (elem = f) then nullptr else elem) <$> l !! i.
Proof.
  revert i. induction l as [|elem rest IH]; intros [|i]; simpl; auto.
Qed.

Lemma RemoveNetworkFilters_absent (f : ptr) (l : list ptr) :
  f ∉ l → RemoveNetworkFilters f l = l.
Proof.
  induction l as [|elem rest IH]; simpl; intros Hnot; [done|].
  apply not_elem_of_cons in Hnot as [Hne Hrest].
  rewrite decide_False by congruence. by rewrite IH.
Qed.

Lemma RemoveNetworkFilters_gone (f : ptr) (l : list ptr) :
  f ≠ nullptr → f ∉ RemoveNetworkFilters f l.
Proof.
  intros Hf. induction l as [|elem rest IH]; simpl.
  - apply not_elem_of_nil.
  - apply not_elem_of_cons. split; [|done].
    case_decide; congruence.
Qed.

Lemma RemoveNetworkFilters_nullptr (l : list ptr) :
  RemoveNetworkFilters nullptr l = l.
Proof.
  induction l as [|elem rest IH]; simpl; [done|].
  rewrite IH. case_decide; congruence.
Qed.

(** Once a position holds a tombstone, no later add or remove changes it. *)
Lemma RemoveNetworkFilters_keeps_tombstone (f : ptr) (l : list ptr) (i : nat) :
  l !! i = Some nullptr → RemoveNetworkFilters f l !! i = Some nullptr.
Proof.
  intros H. rewrite RemoveNetworkFilters_lookup, H. simpl.
  by case_decide.
Qed.

Lemma AddNetworkFilters_lookup_old (p : ptr) (l : list ptr) (i : nat) :
  i < length l → AddNetworkFilters p l !! i = l !! i.
Proof. intros H. unfold AddNetworkFilters. by apply lookup_app_l. Qed.

(** C4: [RemoveNetworkFilters(f)] writes a tombstone into every entry that
    equals [f], however many times [f] was registered, leaves every other
    entry as it was at the same position, and keeps the length of the
    backing sequence; a traversal that is waiting at some position keeps
    that position across the call. *)
Theorem RemoveNetworkFilters_tombstones (f : ptr) (filters_ : list ptr) :
  length (RemoveNetworkFilters f filters_) = length filters_
  ∧ (∀ i, filters_ !! i = Some f →
          RemoveNetworkFilters f filters_ !! i = Some nullptr)
  ∧ (∀ i elem, filters_ !! i = Some elem → elem ≠ f →
          RemoveNetworkFilters f filters_ !! i = Some elem)
  ∧ (∀ handle t st,
        let s' := Chain.step_with handle (Chain.mkRun filters_ t st)
                                  (Chain.Remove f) in
        Chain.status s' = st
        ∧ Chain.filters_ s' = RemoveNetworkFilters f filters_).
Proof.
  split; [apply RemoveNetworkFilters_length|].
  split; [|split].
  - intros i H. rewrite RemoveNetworkFilters_lookup, H. simpl.
    by rewrite decide_True.
  - intros i elem H Hne. rewrite RemoveNetworkFilters_lookup, H. simpl.
    by rewrite decide_False.
  - intros handle t st. simpl. done.
Qed.

Lemma RemoveNetworkFilters_tombstones_witness :
  RemoveNetworkFilters (Some 1) [Some 1; Some 2; Some 1] !! 2 = Some nullptr
  ∧ RemoveNetworkFilters (Some 1) [Some 1; Some 2; Some 1] !! 1 = Some (Some 2).
Proof.
  destruct (RemoveNetworkFilters_tombstones (Some 1) [Some 1; Some 2; Some 1])
    as (_ & Hhit & Hmiss & _).
  split.
  - apply Hhit. reflexivity.
  - apply Hmiss; [reflexivity | discriminate].
Defined.

(** C10: [RemoveNetworkFilters] is a total function of the registry; with a
    pointer that occurs nowhere in the registry (never added, or every
    entry for it already tombstoned) or with the null pointer it returns
    the registry unchanged; after one removal the pointer occurs nowhere;
    and removing twice gives what removing once gives. *)
Theorem RemoveNetworkFilters_idempotent (f : ptr) (filters_ : list ptr) :
  (f ∉ filters_ → RemoveNetworkFilters f filters_ = filters_)
  ∧ (f ≠ nullptr → f ∉ RemoveNetworkFilters f filters_)
  ∧ RemoveNetworkFilters nullptr filters_ = filters_
  ∧ RemoveNetworkFilters f (RemoveNetworkFilters f filters_) =
      RemoveNetworkFilters f filters_.
Proof.
  split; [apply RemoveNetworkFilters_absent|].
  split; [apply RemoveNetworkFilters_gone|].
  split; [apply RemoveNetworkFilters_nullptr|].
  destruct f as [a|].
  - apply RemoveNetworkFilters_absent, RemoveNetworkFilters_gone. discriminate.
  - apply RemoveNetworkFilters_nullptr.
Qed.

Lemma RemoveNetworkFilters_idempotent_witness :
  RemoveNetworkFilters (Some 3) [Some 1; None; Some 2] = [Some 1; None; Some 2]
  ∧ Some 1 ∉ RemoveNetworkFilters (Some 1) [Some 1; None; Some 1].
Proof.
  split.
  - destruct (RemoveNetworkFilters_idempotent (Some 3) [Some 1; None; Some 2])
      as (Habsent & _).
    apply Habsent.
    intros Hin. repeat (apply elem_of_cons in Hin as [Hin|Hin]; [discriminate|]).
    by apply elem_of_nil in Hin.
  - destruct (RemoveNetworkFilters_idempotent (Some 1) [Some 1; None; Some 1])
      as (_ & Hgone & _).
    apply Hgone. discriminate.
Defined.

End RegistryFacts.

(** ** One step of the chain *)

Section StepFacts.
Import Registry Chain.

Example step_skips_tombstones :
  StepNetworkFilter [None; Some 4; Some 5] 0 =
    ([EvLock; EvOnFilter 1 4; EvHandleNetworkFuture 1; EvUnlock], Waiting 1 4).
Proof. reflexivity. Qed.

Example step_past_the_end :
  StepNetworkFilter [Some 4; None] 1 =
    ([EvLock; EvUnlock; EvFinalize; EvResolveWith], Resolved).
Proof. reflexivity. Qed.

Lemma scan_None (rest : list ptr) (it : nat) :
  scan rest it = None ↔ live rest = [].
Proof.
  revert it. induction rest as [|[f|] rest IH]; intros it; simpl.
  - done.
  - split; discriminate.
  - apply IH.
Qed.

Lemma scan_Some (rest : list ptr) (it pos : nat) (f : NetworkFilters) :
  scan rest it = Some (pos, f) →
  ∃ k, pos = it + k
       ∧ rest !! k = Some (Some f)
       ∧ (∀ j, j < k → rest !! j = Some nullptr)
       ∧ live rest = f :: live (drop (S k) rest).
Proof.
  revert it. induction rest as [|[g|] rest IH]; intros it; simpl.
  - discriminate.
  - intros [= <- <-]. exists 0.
    split; [lia|]. split; [done|]. split; [|done].
    intros j Hj. lia.
  - intros H. destruct (IH _ H) as (k & -> & Hk & Hskip & Hlive).
    exists (S k).
    split; [lia|]. split; [done|]. split; [|done].
    intros [|j] Hj; simpl; [done|]. apply Hskip. lia.
Qed.

(** What one call of [StepNetworkFilter] finds. *)
Lemma StepNetworkFilter_cases (l : list ptr) (it : nat) :
  (∃ pos f,
      StepNetworkFilter l it =
        ([EvLock; EvOnFilter pos f; EvHandleNetworkFuture pos; EvUnlock],
         Waiting pos f)
      ∧ it ≤ pos
      ∧ l !! pos = Some (Some f)
      ∧ (∀ j, it ≤ j < pos → l !! j = Some nullptr)
      ∧ live (drop it l) = f :: live (drop (S pos) l))
  ∨ (StepNetworkFilter l it =
       ([EvLock; EvUnlock; EvFinalize; EvResolveWith], Resolved)
     ∧ live (drop it l) = []).
Proof.
  unfold StepNetworkFilter.
  destruct (scan (drop it l) it) as [[pos f]|] eqn:Hscan.
  - left. exists pos, f.
    apply scan_Some in Hscan as (k & -> & Hk & Hskip & Hlive).
    rewrite lookup_drop in Hk. rewrite drop_drop in Hlive.
    split; [done|]. split; [lia|]. split; [done|].
    split.
    + intros j Hj. specialize (Hskip (j - it)).
      rewrite lookup_drop in Hskip.
      replace (it + (j - it)) with j in Hskip by lia. apply Hskip. lia.
    + rewrite Hlive. do 3 f_equal. lia.
  - right. split; [done|]. by apply scan_None in Hscan.
Qed.

End StepFacts.

(** ** Runs over a registry nobody touches *)

Section QuietRuns.
Import Registry Chain.

Example chain_two_filters_ok :
  run [Complete None; Complete None] (start [Some 1; None; Some 2]) =
    mkRun [Some 1; None; Some 2]
      [EvLock; EvOnFilter 0 1; EvHandleNetworkFuture 0; EvUnlock;
       EvLock; EvOnFilter 2 2; EvHandleNetworkFuture 2; EvUnlock;
       EvLock; EvUnlock; EvFinalize; EvResolveWith]
      Resolved.
Proof. reflexivity. Qed.

Example chain_first_filter_fails :
  run [Complete (Some (mkError "denied"))] (start [Some 1; Some 2]) =
    mkRun [Some 1; Some 2]
      [EvLock; EvOnFilter 0 1; EvHandleNetworkFuture 0; EvUnlock;
       EvRejectWith (mkError "denied")]
      (Rejected (mkError "denied")).
Proof. reflexivity. Qed.

Lemma start_no_live (l : list ptr) :
  live l = [] →
  start l = mkRun l [EvLock; EvUnlock; EvFinalize; EvResolveWith] Resolved.
Proof.
  intros Hlive. unfold start, StepNetworkFilter. rewrite drop_0.
  apply (scan_None _ 0) in Hlive. by rewrite Hlive.
Qed.

(** C5: over a registry with no live entry (empty, or tombstones only) the
    run calls no filter, calls [Finalize] once and resolves the promise;
    that is all it does. *)
Theorem chain_no_live_filters (filters_0 : list ptr) :
  live filters_0 = [] →
  start filters_0 =
    mkRun filters_0 [EvLock; EvUnlock; EvFinalize; EvResolveWith] Resolved
  ∧ status (start filters_0) = Resolved
  ∧ visited (trace (start filters_0)) = []
  ∧ finalize_count (trace (start filters_0)) = 1.
Proof.
  intros Hlive. rewrite (start_no_live _ Hlive). done.
Qed.

Lemma chain_no_live_filters_witness :
  start [None; None] =
    mkRun [None; None] [EvLock; EvUnlock; EvFinalize; EvResolveWith] Resolved
  ∧ status (start [None; None]) = Resolved
  ∧ visited (trace (start [None; None])) = []
  ∧ finalize_count (trace (start [None; None])) = 1.
Proof. apply (chain_no_live_filters [None; None]). reflexivity. Defined.

Lemma visited_app (t1 t2 : list event) :
  visited (t1 ++ t2) = visited t1 ++ visited t2.
Proof. apply omap_app. Qed.

Lemma finalize_count_app (t1 t2 : list event) :
  finalize_count (t1 ++ t2) = finalize_count t1 + finalize_count t2.
Proof. unfold finalize_count. by rewrite filter_app, length_app. Qed.

(** After the first [j + 1] live filters have been called and [j] of them
    have succeeded, the run waits for the [j + 1]st. *)
Lemma quiet_prefix (l : list ptr) (j : nat) :
  j < length (live l) →
  let s := run (replicate j (Complete None)) (start l) in
  ∃ pos f,
    status s = Waiting pos f
    ∧ filters_ s = l
    ∧ visited (trace s) = take (S j) (live l)
    ∧ live (drop (S pos) l) = drop (S j) (live l)
    ∧ finalize_count (trace s) = 0
    ∧ EvResolveWith ∉ trace s.
Proof.
  induction j as [|j IH]; intros Hj; cbv zeta in *.
  - simpl. unfold start.
    destruct (StepNetworkFilter_cases l 0)
      as [(pos & f & -> & _ & _ & _ & Hlive) | [_ Hnil]].
    + rewrite drop_0 in Hlive. exists pos, f. simpl.
      rewrite Hlive. simpl. rewrite take_0, drop_0.
      do 5 (split; [done|]).
      intros Hin. repeat (apply elem_of_cons in Hin as [Hin|Hin]; [discriminate|]).
      by apply elem_of_nil in Hin.
    + rewrite drop_0 in Hnil. rewrite Hnil in Hj. simpl in Hj. lia.
  - destruct IH as (pos & f & Hst & Hreg & Hvis & Hlive & Hfin & Hres); [lia|].
    rewrite replicate_S_end.
    unfold run, run_with in *. rewrite foldl_app. simpl.
    set (s := foldl (step_with HandleNetworkFuture) (start l)
                (replicate j (Complete None))) in *.
    rewrite Hst. simpl. rewrite Hreg.
    assert (is_Some (live l !! S j)) as [g Hg] by (apply lookup_lt_is_Some; lia).
    rewrite (drop_S _ _ _ Hg) in Hlive.
    destruct (StepNetworkFilter_cases l (S pos))
      as [(pos' & f' & -> & _ & _ & _ & Hlive') | [_ Hnil]].
    + rewrite Hlive in Hlive'. injection Hlive' as <- Hrest.
      exists pos', g. simpl.
      split; [done|]. split; [done|].
      split; [rewrite visited_app, Hvis; simpl; symmetry; by apply take_S_r|].
      split; [done|].
      split; [rewrite finalize_count_app, Hfin; done|].
      intros Hin. apply elem_of_app in Hin as [Hin|Hin]; [done|].
      repeat (apply elem_of_cons in Hin as [Hin|Hin]; [discriminate|]).
      by apply elem_of_nil in Hin.
    + rewrite Hlive in Hnil. discriminate.
Qed.

(** A run in which every live filter succeeds calls all of them, then
    calls [Finalize] once and resolves. *)
Lemma chain_all_succeed (l : list ptr) :
  let s := run (replicate (length (live l)) (Complete None)) (start l) in
  status s = Resolved
  ∧ visited (trace s) = live l
  ∧ finalize_count (trace s) = 1.
Proof.
  cbv zeta. destruct (length (live l)) as [|j] eqn:Hlen.
  - apply length_zero_iff_nil in Hlen.
    rewrite (start_no_live l Hlen). simpl.
    by rewrite Hlen.
  - destruct (quiet_prefix l j) as (pos & f & Hst & Hreg & Hvis & Hlive & Hfin & _);
      [lia|].
    rewrite replicate_S_end. unfold run, run_with in *. rewrite foldl_app. simpl.
    set (s := foldl (step_with HandleNetworkFuture) (start l)
                (replicate j (Complete None))) in *.
    rewrite Hst. simpl. rewrite Hreg.
    rewrite (drop_ge (live l)) in Hlive by lia.
    destruct (StepNetworkFilter_cases l (S pos))
      as [(pos' & f' & _ & _ & _ & _ & Hlive') | [-> _]].
    + rewrite Hlive in Hlive'. discriminate.
    + simpl. split; [done|].
      rewrite visited_app, finalize_count_app, Hvis, Hfin. simpl.
      rewrite app_nil_r. split; [|done].
      apply take_ge. lia.
Qed.

(** C2, as the code has it: when the [k]th live filter of an untouched
    registry returns an error after the first [k - 1] succeeded, the run
    has called exactly the first [k] live filters in order, the promise is
    rejected with that error, the promise is never resolved, and
    [Finalize] is not called. *)
Theorem chain_error_at_k (filters_0 : list ptr) (k : nat) (e : Error) :
  1 ≤ k ≤ length (live filters_0) →
  let s := run (replicate (k - 1) (Complete None) ++ [Complete (Some e)])
               (start filters_0) in
  visited (trace s) = take k (live filters_0)
  ∧ status s = Rejected e
  ∧ filters_ s = filters_0
  ∧ (EvResolveWith ∉ trace s)
  ∧ finalize_count (trace s) = 0.
Proof.
  intros [Hk1 Hk2]. cbv zeta.
  destruct (quiet_prefix filters_0 (k - 1))
    as (pos & f & Hst & Hreg & Hvis & _ & Hfin & Hres); [lia|].
  replace (S (k - 1)) with k in Hvis by lia.
  unfold run, run_with in *. rewrite foldl_app. simpl.
  set (s := foldl (step_with HandleNetworkFuture) (start filters_0)
              (replicate (k - 1) (Complete None))) in *.
  rewrite Hst. simpl.
  split; [rewrite visited_app, Hvis; simpl; by rewrite app_nil_r|].
  split; [done|]. split; [done|].
  split; [|rewrite finalize_count_app, Hfin; done].
  intros Hin. apply elem_of_app in Hin as [Hin|Hin]; [done|].
  apply elem_of_cons in Hin as [Hin|Hin]; [discriminate|].
  by apply elem_of_nil in Hin.
Qed.

Lemma chain_error_at_k_witness :
  let s := run (replicate (2 - 1) (Complete None) ++ [Complete (Some (mkError "denied"))])
               (start [Some 1; None; Some 2; Some 3]) in
  visited (trace s) = take 2 (live [Some 1; None; Some 2; Some 3])
  ∧ status s = Rejected (mkError "denied")
  ∧ filters_ s = [Some 1; None; Some 2; Some 3]
  ∧ (EvResolveWith ∉ trace s)
  ∧ finalize_count (trace s) = 0.
Proof.
  apply (chain_error_at_k [Some 1; None; Some 2; Some 3] 2 (mkError "denied")).
  simpl. lia.
Defined.

(** C2 as stated fails: with two live filters of which the first returns
    an error, the run calls the first filter only and is rejected with the
    error, but [Finalize] has been called zero times, not once. *)
Lemma chain_error_finalize_counterexample :
  let s := run [Complete (Some (mkError "denied"))] (start [Some 1; Some 2]) in
  live [Some 1; Some 2] = [1; 2]
  ∧ visited (trace s) = [1]
  ∧ status s = Rejected (mkError "denied")
  ∧ finalize_count (trace s) = 0
  ∧ finalize_count (trace s) ≠ 1.
Proof. cbv zeta. repeat split; try reflexivity. vm_compute. discriminate. Qed.

(** Whatever [HandleNetworkFuture] does with an error, no behaviour gives
    what C2 states at this input: if it runs the continuation the second
    filter is called, and if it does not, [Finalize] is never called. *)
Lemma chain_error_any_handler (handle : option Error → handled) (e : Error) :
  let s := run_with handle [Complete (Some e)] (start [Some 1; Some 2]) in
  ¬ (visited (trace s) = [1] ∧ finalize_count (trace s) = 1).
Proof.
  cbv zeta. unfold run_with. simpl.
  destruct (handle (Some e)); simpl; intros [Hvisited Hfinal]; discriminate.
Qed.

End QuietRuns.

(** ** Runs interleaved with any adds and removes *)

Section AnySchedule.
Import Registry Chain.

(** A filter ahead of the traversal is removed and added again: its old
    position 1 is skipped and it is called at its new position 2. *)
Example readded_ahead_of_traversal :
  trace (run [Remove (Some 2); Add (Some 2); Complete None]
             (start [Some 1; Some 2])) =
    [EvLock; EvOnFilter 0 1; EvHandleNetworkFuture 0; EvUnlock;
     EvLock; EvRemove (Some 2); EvUnlock;
     EvLock; EvAdd (Some 2); EvUnlock;
     EvLock; EvOnFilter 2 2; EvHandleNetworkFuture 2; EvUnlock].
Proof. reflexivity. Qed.

(** A filter already called is removed and added again: position 0 is not
    called again, the new entry at position 1 is. *)
Example readded_behind_traversal :
  visited (trace (run [Remove (Some 1); Add (Some 1); Complete None]
                      (start [Some 1]))) = [1; 1]
  ∧ filters_ (run [Remove (Some 1); Add (Some 1); Complete None]
                  (start [Some 1])) = [None; Some 1].
Proof. split; reflexivity. Qed.

Lemma replay_app (reg : list ptr) (t u : list event) :
  replay reg (t ++ u) = replay (replay reg t) u.
Proof.
  revert reg. induction t as [|ev t IH]; intros reg; simpl; [done|].
  destruct ev; apply IH.
Qed.

Lemma resume_from_app (r : nat) (t u : list event) :
  resume_from r (t ++ u) = resume_from (resume_from r t) u.
Proof. apply foldl_app. Qed.

Lemma held_from_app (h : bool) (t u : list event) :
  held_from h (t ++ u) = held_from (held_from h t) u.
Proof. apply foldl_app. Qed.

Lemma ordered_from_app (reg : list ptr) (r : nat) (t u : list event) :
  ordered_from reg r (t ++ u) ↔
  ordered_from reg r t ∧ ordered_from (replay reg t) (resume_from r t) u.
Proof.
  revert reg r. induction t as [|ev t IH]; intros reg r; simpl.
  - tauto.
  - destruct ev; simpl; rewrite ?IH; tauto.
Qed.

Lemma lock_scoped_app (h : bool) (t u : list event) :
  lock_scoped h (t ++ u) ↔ lock_scoped h t ∧ lock_scoped (held_from h t) u.
Proof.
  revert h. induction t as [|ev t IH]; intros h; simpl.
  - tauto.
  - rewrite IH. tauto.
Qed.

Lemma ordered_from_later (reg : list ptr) (r : nat) (t : list event)
    (pos : nat) (f : NetworkFilters) :
  ordered_from reg r t → EvOnFilter pos f ∈ t → r ≤ pos.
Proof.
  revert reg r. induction t as [|ev t IH]; intros reg r Hord Hin.
  - by apply elem_of_nil in Hin.
  - apply elem_of_cons in Hin as [<- | Hin].
    + simpl in Hord. tauto.
    + destruct ev; simpl in Hord; try (by eapply IH).
      destruct Hord as (Hle & _ & _ & Hord).
      specialize (IH _ _ Hord Hin). lia.
Qed.

Lemma replay_keeps_tombstone (reg : list ptr) (t : list event) (j : nat) :
  reg !! j = Some nullptr → replay reg t !! j = Some nullptr.
Proof.
  revert reg. induction t as [|ev t IH]; intros reg Hj; simpl; [done|].
  destruct ev; try (by apply IH).
  - apply IH. rewrite AddNetworkFilters_lookup_old; [done|].
    by eapply lookup_lt_Some.
  - apply IH. by apply RemoveNetworkFilters_keeps_tombstone.
Qed.

(** One call of [StepNetworkFilter], read with the two disciplines. *)
Lemma StepNetworkFilter_disciplined (l : list ptr) (it : nat) :
  let '(evs, st) := StepNetworkFilter l it in
  ordered_from l it evs
  ∧ replay l evs = l
  ∧ (∀ it' f, st = Waiting it' f → resume_from it evs = S it')
  ∧ lock_scoped false evs
  ∧ held_from false evs = false.
Proof.
  destruct (StepNetworkFilter_cases l it)
    as [(pos & f & -> & Hle & Hpos & Hskip & _) | [-> _]]; simpl.
  - split; [done|]. split; [done|]. split; [|done].
    by intros it' f' [= <- <-].
  - split; [done|]. split; [done|]. split; [|done].
    intros it' f' [=].
Qed.

Lemma start_disciplined (filters_0 : list ptr) :
  disciplined filters_0 (start filters_0).
Proof.
  unfold disciplined, start, resume_pos, held.
  pose proof (StepNetworkFilter_disciplined filters_0 0) as H.
  destruct (StepNetworkFilter filters_0 0) as [evs st]. simpl.
  destruct H as (Hord & Hrep & Hres & Hlock & Hheld). by split_and!.
Qed.

Lemma step_disciplined (handle : option Error → handled)
    (filters_0 : list ptr) (s : run_state) (a : action) :
  disciplined filters_0 s → disciplined filters_0 (step_with handle s a).
Proof.
  unfold disciplined, resume_pos, held.
  intros (Hreg & Hord & Hres & Hlock & Hheld).
  destruct a as [p | p | r]; simpl.
  - rewrite replay_app, ordered_from_app, resume_from_app, lock_scoped_app,
      held_from_app, Hheld, <- Hreg. simpl. done.
  - rewrite replay_app, ordered_from_app, resume_from_app, lock_scoped_app,
      held_from_app, Hheld, <- Hreg. simpl. done.
  - destruct (status s) as [it f | | e] eqn:Hst;
      [|split_and!; try done; rewrite Hst; intros ? ? [=]..].
    destruct (handle r) as [|e]; simpl.
    + pose proof (StepNetworkFilter_disciplined (filters_ s) (S it)) as H.
      destruct (StepNetworkFilter (filters_ s) (S it)) as [evs st]. simpl.
      destruct H as (Hord' & Hrep' & Hres' & Hlock' & Hheld').
      rewrite replay_app, ordered_from_app, resume_from_app, lock_scoped_app,
        held_from_app, Hheld, <- Hreg, (Hres it f eq_refl).
      done.
    + rewrite replay_app, ordered_from_app, lock_scoped_app,
        held_from_app, Hheld, <- Hreg. simpl.
      split; [done|]. split; [done|]. split; [|done]. intros ? ? [=].
Qed.

Lemma run_disciplined (handle : option Error → handled)
    (filters_0 : list ptr) (sched : list action) :
  disciplined filters_0 (run_with handle sched (start filters_0)).
Proof.
  unfold run_with. induction sched as [|a sched IH] using rev_ind; simpl.
  - apply start_disciplined.
  - rewrite foldl_app. simpl. by apply step_disciplined.
Qed.

(** C3: take any call of a filter [f] at position [pos] in a run
    interleaved with any adds and removes, and let [t1] be everything done
    before it.  The scan that led to the call started just past the
    previously called position (at [begin()] for the first call); [pos]
    is at or after that start; at the time of the call the entry at [pos]
    is [f], live, and every entry between the start and [pos] is a
    tombstone (skipped); every later call of the run is at a position
    strictly after [pos]; and [pos] held no tombstone at any earlier
    moment, so an entry once tombstoned is never called, whether or not
    its filter is added again. *)
Theorem traversal_in_registration_order
    (handle : option Error → handled)
    (filters_0 : list ptr) (sched : list action)
    (t1 t2 : list event) (pos : nat) (f : NetworkFilters) :
  trace (run_with handle sched (start filters_0)) = t1 ++ EvOnFilter pos f :: t2 →
  resume_pos t1 ≤ pos
  ∧ replay filters_0 t1 !! pos = Some (Some f)
  ∧ (∀ j, resume_pos t1 ≤ j < pos → replay filters_0 t1 !! j = Some nullptr)
  ∧ (∀ pos' f', EvOnFilter pos' f' ∈ t2 → pos < pos')
  ∧ (∀ t0 t0', t1 = t0 ++ t0' → replay filters_0 t0 !! pos ≠ Some nullptr).
Proof.
  intros Htrace.
  destruct (run_disciplined handle filters_0 sched) as (_ & Hord & _).
  rewrite Htrace in Hord.
  apply ordered_from_app in Hord as [_ Hord]. simpl in Hord.
  destruct Hord as (Hle & Hpos & Hskip & Hlater).
  split; [done|]. split; [done|]. split; [done|]. split.
  - intros pos' f' Hin.
    pose proof (ordered_from_later _ _ _ _ _ Hlater Hin). lia.
  - intros t0 t0' -> Htomb.
    apply (replay_keeps_tombstone _ t0') in Htomb.
    rewrite <- replay_app in Htomb.
    assert (Some (Some f) = Some nullptr) as Habs
      by (etrans; [symmetry; exact Hpos | exact Htomb]).
    discriminate Habs.
Qed.

Lemma traversal_in_registration_order_witness :
  resume_pos [EvLock; EvOnFilter 0 1; EvHandleNetworkFuture 0; EvUnlock;
              EvLock; EvRemove (Some 2); EvUnlock;
              EvLock; EvAdd (Some 2); EvUnlock; EvLock] ≤ 2
  ∧ replay [Some 1; Some 2]
       [EvLock; EvOnFilter 0 1; EvHandleNetworkFuture 0; EvUnlock;
        EvLock; EvRemove (Some 2); EvUnlock;
        EvLock; EvAdd (Some 2); EvUnlock; EvLock] !! 2 = Some (Some 2).
Proof.
  destruct (traversal_in_registration_order
              HandleNetworkFuture
              [Some 1; Some 2]
              [Remove (Some 2); Add (Some 2); Complete None]
              [EvLock; EvOnFilter 0 1; EvHandleNetworkFuture 0; EvUnlock;
               EvLock; EvRemove (Some 2); EvUnlock;
               EvLock; EvAdd (Some 2); EvUnlock; EvLock]
              [EvHandleNetworkFuture 2; EvUnlock] 2 2)
    as (Hle & Hpos & _).
  - reflexivity.
  - split; [exact Hle | exact Hpos].
Defined.

(** C8, as the code has it: in a run interleaved with any adds and
    removes, the lock is taken only when free and released only when held;
    adds, removes, the call of a filter's [on_filter] and the hand-over of
    its future to [HandleNetworkFuture] happen while the lock is held;
    [Finalize] and [ResolveWith] happen while it is not held; and between
    two actions of a schedule the lock is free. *)
Theorem lock_scope_of_a_run
    (handle : option Error → handled)
    (filters_0 : list ptr) (sched : list action)
    (t1 t2 : list event) (ev : event) :
  trace (run_with handle sched (start filters_0)) = t1 ++ ev :: t2 →
  match ev with
  | EvLock => held t1 = false
  | EvUnlock | EvAdd _ | EvRemove _ => held t1 = true
  | EvOnFilter _ _ | EvHandleNetworkFuture _ => held t1 = true
  | EvFinalize | EvResolveWith => held t1 = false
  | EvRejectWith _ => True
  end
  ∧ held (trace (run_with handle sched (start filters_0))) = false.
Proof.
  intros Htrace.
  destruct (run_disciplined handle filters_0 sched) as (_ & _ & _ & Hlock & Hheld).
  split; [|done].
  rewrite Htrace in Hlock.
  apply lock_scoped_app in Hlock as [_ Hlock]. simpl in Hlock.
  destruct Hlock as [Hside _]. unfold held.
  destruct ev; exact Hside.
Qed.

Lemma lock_scope_of_a_run_witness :
  held [EvLock; EvOnFilter 0 7; EvHandleNetworkFuture 0; EvUnlock;
        EvLock; EvUnlock] = false.
Proof.
  destruct (lock_scope_of_a_run HandleNetworkFuture [Some 7] [Complete None]
              [EvLock; EvOnFilter 0 7; EvHandleNetworkFuture 0; EvUnlock;
               EvLock; EvUnlock]
              [EvResolveWith] EvFinalize) as [Hside _].
  - reflexivity.
  - exact Hside.
Defined.

(** C8 as stated fails: with one live filter the very first step calls the
    filter's [on_filter], which starts its asynchronous step, after the
    lock was taken and before it is released. *)
Lemma filter_called_under_lock_counterexample :
  trace (start [Some 7]) =
    [EvLock] ++ EvOnFilter 0 7 :: [EvHandleNetworkFuture 0; EvUnlock]
  ∧ held [EvLock] = true
  ∧ held [EvLock] ≠ false.
Proof. split; [reflexivity|]. split; [reflexivity|]. discriminate. Qed.

End AnySchedule.

(** ** The held sink *)

Section SinkFacts.
Import Sink.

(** Attach on a fresh object, success, get: the new element is held. *)
Example attach_then_get :
  let '(st1, fut) := Attach 70 fresh in
  let st2 := resolve 0 monostate st1 in
  (video_ st2, (snd <$> get fut st2), (video_ ∘ fst <$> get fut st2))
  = (None, Some monostate, Some (Some 0)).
Proof. reflexivity. Qed.

(** Attach, success, get, detach, success, get: nothing is held and the
    element was detached once. *)
Example attach_detach_scenario :
  let st := run [Issue (OpAttach 70); EngineResolves 0 monostate; FutureGet 0;
                 Issue OpDetach; EngineResolves 1 monostate; FutureGet 1] fresh in
  video_ st = None
  ∧ sink_log st = [SinkAssign (Some 0); SinkDetach 0; SinkAssign None].
Proof. split; reflexivity. Qed.

(** A caller still blocked in get has changed nothing. *)
Example get_before_resolution :
  get 0 (fst (Attach 70 fresh)) = None.
Proof. reflexivity. Qed.

Lemma issue_frame (o : op) (st : Impl) :
  video_ (fst (issue o st)) = video_ st
  ∧ sink_log (fst (issue o st)) = sink_log st
  ∧ snd (issue o st) = length (asyncs st)
  ∧ asyncs (fst (issue o st)) =
      asyncs st ++ [mkDeferred (length (calls st)) (requested o st) None]
  ∧ ∃ name args,
      calls (fst (issue o st)) = calls st ++ [mkCall name args None].
Proof.
  destruct o as [player|]; simpl; split_and!; try done.
  - by exists "attach"%string, [Some (length (elements st))].
  - by exists "detach"%string, [].
Qed.

Lemma resolve_frame (call : nat) (r : variant_type) (st : Impl) :
  video_ (resolve call r st) = video_ st
  ∧ sink_log (resolve call r st) = sink_log st
  ∧ asyncs (resolve call r st) = asyncs st
  ∧ length (calls (resolve call r st)) = length (calls st).
Proof.
  unfold resolve.
  destruct (calls st !! call) as [[name args [r0|]]|]; simpl; split_and!; try done.
  by rewrite length_insert.
Qed.

(** A call that is ready stays ready with the same outcome. *)
Lemma resolve_keeps_ready (call : nat) (r : variant_type) (st : Impl)
    (i : nat) (c : remote_call) (r0 : variant_type) :
  calls st !! i = Some c → rc_result c = Some r0 →
  calls (resolve call r st) !! i = Some c.
Proof.
  intros Hi Hr. unfold resolve.
  destruct (calls st !! call) as [[name args [r1|]]|] eqn:Hc; simpl; try done.
  destruct (decide (call = i)) as [->|Hne].
  - rewrite Hi in Hc. injection Hc as ->. simpl in Hr. discriminate.
  - by rewrite list_lookup_insert_ne.
Qed.

(** The only way [video_] or the sink log changes in one action. *)
Lemma step_changes_sink (st : Impl) (a : action) :
  (video_ (step st a) = video_ st ∧ sink_log (step st a) = sink_log st)
  ∨ ∃ fut d c,
      a = FutureGet fut
      ∧ asyncs st !! fut = Some d
      ∧ df_value d = None
      ∧ calls st !! df_future d = Some c
      ∧ rc_result c = Some monostate
      ∧ video_ (step st a) = df_video d
      ∧ sink_log (step st a) =
          sink_log st ++ detach_held (video_ st) ++ [SinkAssign (df_video d)].
Proof.
  destruct a as [o | call r | fut]; simpl.
  - left. destruct (issue_frame o st) as (? & ? & _). done.
  - left. destruct (resolve_frame call r st) as (? & ? & _). done.
  - unfold get.
    destruct (asyncs st !! fut) as [d|] eqn:Hd; [|by left].
    destruct (df_value d) as [r|] eqn:Hv; [by left|].
    destruct (calls st !! df_future d) as [c|] eqn:Hc; [|by left].
    destruct c as [name args [[|e]|]]; simpl; [|by left|by left].
    right. exists fut, d, (mkCall name args (Some monostate)). done.
Qed.

(** Actions other than a get leave the sink alone, keep every deferred
    lambda as it is and keep every ready call ready. *)
Lemma run_without_get (acts : list action) (st : Impl) :
  forallb (fun a => negb (is_get a)) acts = true →
  video_ (run acts st) = video_ st
  ∧ sink_log (run acts st) = sink_log st
  ∧ asyncs st `prefix_of` asyncs (run acts st)
  ∧ (∀ i c r0, calls st !! i = Some c → rc_result c = Some r0 →
               calls (run acts st) !! i = Some c).
Proof.
  revert st. induction acts as [|a acts IH]; intros st Hacts; simpl.
  - done.
  - simpl in Hacts. apply andb_prop in Hacts as [Ha Hacts].
    destruct (IH (step st a) Hacts) as (Hv & Hl & Hp & Hc).
    unfold run in *. rewrite Hv, Hl. clear IH Hv Hl.
    destruct a as [o | call r | fut]; simpl in *; [| |discriminate].
    + destruct (issue_frame o st) as (Hv' & Hl' & _ & Ha' & name & args & Hc').
      split_and!; try done.
      * etrans; [|exact Hp]. rewrite Ha'. by apply prefix_app_r.
      * intros i c r0 Hi Hr. eapply Hc; [|exact Hr].
        rewrite Hc'. rewrite lookup_app_l; [done|]. by eapply lookup_lt_Some.
    + destruct (resolve_frame call r st) as (Hv' & Hl' & Ha' & _).
      split_and!; try done.
      * by rewrite <- Ha'.
      * intros i c r0 Hi Hr. eapply Hc; [|exact Hr].
        by eapply resolve_keeps_ready.
Qed.

(** The operation, then the engine's answer. *)
Lemma issue_then_resolve (st : Impl) (o : op) (results : variant_type) :
  let st2 := resolve (length (calls st)) results (fst (issue o st)) in
  video_ st2 = video_ st
  ∧ sink_log st2 = sink_log st
  ∧ asyncs st2 =
      asyncs st ++ [mkDeferred (length (calls st)) (requested o st) None]
  ∧ ∃ name args,
      calls st2 !! length (calls st) = Some (mkCall name args (Some results)).
Proof.
  cbv zeta.
  destruct (issue_frame o st) as (Hv & Hl & _ & Ha & name & args & Hc).
  unfold resolve. rewrite Hc, list_lookup_middle by done. simpl.
  split_and!; try done.
  exists name, args. apply list_lookup_insert_eq.
  rewrite length_app. simpl. lia.
Qed.

(** A get on a deferred lambda that has not run, once its call is ready. *)
Lemma get_runs_then (st : Impl) (fut : nat) (d : deferred) (c : remote_call)
    (results : variant_type) :
  asyncs st !! fut = Some d → df_value d = None →
  calls st !! df_future d = Some c → rc_result c = Some results →
  ∃ st3, get fut st = Some (st3, results)
    ∧ match results with
      | holds_Error _ => video_ st3 = video_ st ∧ sink_log st3 = sink_log st
      | monostate =>
          video_ st3 = df_video d
          ∧ sink_log st3 =
              sink_log st ++ detach_held (video_ st) ++ [SinkAssign (df_video d)]
      end.
Proof.
  intros Hd Hv Hc Hr. unfold get. rewrite Hd, Hv, Hc.
  destruct c as [name args res]. simpl in Hr. subst res.
  destruct results as [|e]; simpl; eexists; (split; [reflexivity|done]).
Qed.

(** C1: for [Attach] and for [Detach], from any state: once the remote
    call has resolved, the get on the returned future returns the call's
    outcome; if the outcome is an error, the held sink and the sinks'
    history are what they were before the operation; if it is a success,
    the history grows by exactly this: the previously held sink, if there
    was one, receives [Detach()], and then the requested sink (the new
    element, or none for [Detach]) is assigned and held.  And in any
    state, an action changes the held sink or detaches a sink only if it
    is the run of such a deferred commit whose remote call resolved
    successfully, and then it does exactly that detach and that
    assignment. *)
Theorem sink_replaced_only_on_success (st : Impl) :
  (∀ (o : op) (results : variant_type),
      let '(st1, fut) := issue o st in
      let st2 := resolve (length (calls st)) results st1 in
      ∃ st3, get fut st2 = Some (st3, results)
        ∧ match results with
          | holds_Error _ =>
              video_ st3 = video_ st ∧ sink_log st3 = sink_log st
          | monostate =>
              video_ st3 = requested o st
              ∧ sink_log st3 =
                  sink_log st
                    ++ match video_ st with
                       | Some previous => [SinkDetach previous]
                       | None => []
                       end
                    ++ [SinkAssign (requested o st)]
          end)
  ∧ (∀ a : action,
        (video_ (step st a) = video_ st ∧ sink_log (step st a) = sink_log st)
        ∨ ∃ fut d c,
            a = FutureGet fut
            ∧ asyncs st !! fut = Some d
            ∧ df_value d = None
            ∧ calls st !! df_future d = Some c
            ∧ rc_result c = Some monostate
            ∧ video_ (step st a) = df_video d
            ∧ sink_log (step st a) =
                sink_log st
                  ++ match video_ st with
                     | Some previous => [SinkDetach previous]
                     | None => []
                     end
                  ++ [SinkAssign (df_video d)]).
Proof.
  split; [|apply step_changes_sink].
  intros o results.
  pose proof (issue_then_resolve st o results) as H. cbv zeta in H.
  destruct (issue_frame o st) as (_ & _ & Hfut & _).
  destruct (issue o st) as [st1 fut]. simpl in *. subst fut.
  destruct H as (Hv & Hl & Ha & name & args & Hc).
  rewrite <- Hv, <- Hl.
  eapply (get_runs_then _ _ (mkDeferred (length (calls st)) (requested o st) None));
    [|done|exact Hc|done].
  rewrite Ha. by apply list_lookup_middle.
Qed.

(** C9: [Attach] or [Detach] itself leaves the held sink as it is; so does
    the resolution of the remote call, with any outcome, and so does
    anything that follows as long as nobody comes out of a get: the commit
    is still waiting, unrun, in the returned future.  The first get on
    that future then returns the outcome and, if it is a success, performs
    the swap. *)
Theorem sink_swap_is_deferred
    (st : Impl) (o : op) (results : variant_type) (acts : list action) :
  forallb (fun a => negb (is_get a)) acts = true →
  let '(st1, fut) := issue o st in
  let st2 := run acts (resolve (length (calls st)) results st1) in
  video_ st1 = video_ st
  ∧ video_ st2 = video_ st
  ∧ sink_log st2 = sink_log st
  ∧ asyncs st2 !! fut =
      Some (mkDeferred (length (calls st)) (requested o st) None)
  ∧ ∃ st3, get fut st2 = Some (st3, results)
      ∧ (results = monostate → video_ st3 = requested o st).
Proof.
  intros Hacts.
  pose proof (issue_then_resolve st o results) as H. cbv zeta in H.
  destruct (issue_frame o st) as (Hv1 & _ & Hfut & _).
  destruct (issue o st) as [st1 fut]. simpl in *. subst fut.
  destruct H as (Hv & Hl & Ha & name & args & Hc).
  destruct (run_without_get acts (resolve (length (calls st)) results st1) Hacts)
    as (Hv' & Hl' & Hp & Hc').
  set (st2 := run acts (resolve (length (calls st)) results st1)) in *.
  assert (asyncs st2 !! length (asyncs st) =
            Some (mkDeferred (length (calls st)) (requested o st) None)) as Hd.
  { eapply prefix_lookup_Some; [|exact Hp].
    rewrite Ha. by apply list_lookup_middle. }
  split; [done|]. split; [congruence|]. split; [congruence|]. split; [done|].
  destruct (get_runs_then st2 _ _ _ results Hd eq_refl
              (Hc' _ _ _ Hc eq_refl) eq_refl) as (st3 & Hget & Hres).
  exists st3. split; [done|]. intros ->. tauto.
Qed.

Lemma sink_swap_is_deferred_witness :
  let '(st1, fut) := issue (OpAttach 70) fresh in
  let st2 := run [Issue OpDetach; EngineResolves 1 (holds_Error (mkError "busy"))]
                 (resolve (length (calls fresh)) monostate st1) in
  video_ st1 = video_ fresh
  ∧ video_ st2 = video_ fresh
  ∧ sink_log st2 = sink_log fresh
  ∧ asyncs st2 !! fut =
      Some (mkDeferred (length (calls fresh)) (requested (OpAttach 70) fresh) None)
  ∧ ∃ st3, get fut st2 = Some (st3, monostate)
      ∧ (monostate = monostate → video_ st3 = requested (OpAttach 70) fresh).
Proof.
  apply (sink_swap_is_deferred fresh (OpAttach 70) monostate
           [Issue OpDetach; EngineResolves 1 (holds_Error (mkError "busy"))]).
  reflexivity.
Defined.

End SinkFacts.

(** ** Initialization *)

Section InitFacts.
Import Sink Init.

Example initialize_ok :
  Initialize engine_ok (Some 70) fresh =
    (mkImpl (Some 0) true [70] [] [] [SinkAssign (Some 0)],
     (steps (Some 70), monostate)).
Proof. reflexivity. Qed.

Example initialize_second_listener_fails :
  snd (Initialize engine_no_buffering None fresh) =
    ([EvGetDescendant ["shaka"; "Player"]%string; EvInvokeConstructor 0; EvInit;
      EvAttachEventListener "error"; EvAttachEventListener "buffering"],
     holds_Error (mkError "no such event")).
Proof. reflexivity. Qed.

Ltac engine_cases env :=
  match goal with
  | |- context [InvokeConstructor env ?argc] =>
      destruct (InvokeConstructor env argc) eqn:?
  end;
  destruct (AttachEventListener env "error") eqn:?;
  destruct (AttachEventListener env "buffering") eqn:?;
  destruct (CallMethod_result env "getNetworkingEngine") eqn:?;
  destruct (CallMethod_result env "registerRequestFilter") eqn:?;
  destruct (CallMethod_result env "registerResponseFilter") eqn:?.

(** C6: when the value at [shaka.Player] is not a function, the task
    fails with the error "The constructor 'shaka.Player' is not found."
    after the lookup alone and leaves the object as it was.  In general
    the task performs an initial segment of the sequence of steps; every
    step but the last one performed succeeded and the result is the
    outcome of the last one, so the first failing step ends the task and
    its error is the result; the result is a success exactly when no step
    of the sequence fails, and then all steps were performed. *)
Theorem Initialize_aborts_on_first_failure
    (env : engine) (player : option MediaPlayer) (st : Impl) :
  let '(st', (evs, result)) := Initialize env player st in
  (shaka_Player_type env ≠ Function →
     evs = [EvGetDescendant ["shaka"; "Player"]%string]
     ∧ result = holds_Error (mkError "The constructor 'shaka.Player' is not found.")
     ∧ st' = st)
  ∧ evs `prefix_of` steps player
  ∧ Forall (fun ev => answer env ev = monostate) (removelast evs)
  ∧ answer env <$> last evs = Some result
  ∧ (result = monostate ↔
       Forall (fun ev => answer env ev = monostate) (steps player))
  ∧ (result = monostate → evs = steps player ∧ object_ st' = true).
Proof.
  unfold Initialize.
  destruct (decide (shaka_Player_type env ≠ Function)) as [Hno|Hyes].
  - split; [done|]. split; [by eexists|]. split; [by constructor|].
    split; [simpl; by rewrite decide_True|].
    split; [|done]. split; [done|].
    intros HF. apply Forall_inv in HF. simpl in HF.
    by rewrite decide_True in HF.
  - assert (answer env (EvGetDescendant ["shaka"; "Player"]%string) = monostate)
      as Hlookup by (simpl; by rewrite decide_False).
    unfold AttachListeners, ATTACH, call, and_then.
    destruct player as [p|]; simpl.
    all: engine_cases env; simpl.
    all: split; [done|].
    all: split; [by eexists|].
    all: split; [repeat constructor; simpl; try done; by rewrite decide_False|].
    all: split; [simpl; congruence|].
    all: split; [|try done].
    all: split; [try done; intros _; repeat constructor; simpl; try done;
                 by rewrite decide_False|].
    all: intros HF; repeat (apply Forall_cons in HF as [? HF]);
         simpl in *; congruence.
Qed.

Lemma Initialize_aborts_on_first_failure_witness :
  Initialize engine_without_ctor (Some 70) fresh =
    (fresh,
     ([EvGetDescendant ["shaka"; "Player"]%string],
      holds_Error (mkError "The constructor 'shaka.Player' is not found."))).
Proof.
  pose proof (Initialize_aborts_on_first_failure
                engine_without_ctor (Some 70) fresh) as H.
  destruct (Initialize engine_without_ctor (Some 70) fresh) as [st' [evs result]].
  destruct H as (Hmissing & _).
  destruct Hmissing as (-> & -> & ->); [discriminate | reflexivity].
Defined.

End InitFacts.

(** * Further properties of the code *)

(** ** Adds and removes composed *)

Section RegistryAlgebra.
Import Registry Chain ChainHistory.

Lemma live_app (l1 l2 : list ptr) : live (l1 ++ l2) = live l1 ++ live l2.
Proof. apply omap_app. Qed.

Lemma live_remove (f : NetworkFilters) (l : list ptr) :
  live (RemoveNetworkFilters (Some f) l) = filter (fun g => g ≠ f) (live l).
Proof.
  induction l as [|[g|] rest IH]; simpl; [done| |done].
  unfold live in *. simpl. destruct (decide (g = f)) as [->|Hne].
  - rewrite decide_True by done. simpl.
    rewrite filter_cons_False by (intros H; by apply H). exact IH.
  - rewrite decide_False by congruence. simpl.
    rewrite filter_cons_True by done. by rewrite IH.
Qed.

Lemma remove_over_app (f : ptr) (l1 l2 : list ptr) :
  RemoveNetworkFilters f (l1 ++ l2) =
    RemoveNetworkFilters f l1 ++ RemoveNetworkFilters f l2.
Proof. induction l1 as [|elem rest IH]; simpl; [done | by rewrite IH]. Qed.

(** X1: removing a filter takes every registration of it, and nothing
    else, out of the order in which live filters are called; the other
    live filters keep their relative order.  Removing the null pointer
    takes nothing out. *)
Theorem remove_filters_live_order (f : NetworkFilters) (filters_ : list ptr) :
  live (RemoveNetworkFilters (Some f) filters_) =
    filter (fun g => g ≠ f) (live filters_)
  ∧ (f ∉ live (RemoveNetworkFilters (Some f) filters_))
  ∧ live (RemoveNetworkFilters nullptr filters_) = live filters_.
Proof.
  split; [apply live_remove|]. split.
  - rewrite live_remove. intros Hin. apply list_elem_of_filter in Hin as [Hne _].
    by apply Hne.
  - by rewrite RemoveNetworkFilters_nullptr.
Qed.

(** X2: two removals give the same registry in either order. *)
Theorem remove_filters_commute (f g : ptr) (filters_ : list ptr) :
  RemoveNetworkFilters f (RemoveNetworkFilters g filters_) =
    RemoveNetworkFilters g (RemoveNetworkFilters f filters_).
Proof.
  induction filters_ as [|elem rest IH]; simpl; [done|].
  rewrite IH. f_equal.
  destruct (decide (elem = g)) as [Hg|Hg], (decide (elem = f)) as [Hf|Hf];
    repeat case_decide; congruence.
Qed.

(** X3: a removal reaches an entry added before it and not one added after
    it: removing after an add tombstones the new entry if it is the filter
    removed; a filter removed and then added again is live once, as the
    last in the order, in a registry one entry longer, its old entries
    staying tombstones. *)
Theorem remove_then_add_moves_to_end (f : NetworkFilters) (g : ptr)
    (filters_ : list ptr) :
  RemoveNetworkFilters (Some f) (AddNetworkFilters g filters_) =
    AddNetworkFilters (if decide (g = Some f) then nullptr else g)
                      (RemoveNetworkFilters (Some f) filters_)
  ∧ live (AddNetworkFilters (Some f) (RemoveNetworkFilters (Some f) filters_)) =
      filter (fun g => g ≠ f) (live filters_) ++ [f]
  ∧ length (AddNetworkFilters (Some f) (RemoveNetworkFilters (Some f) filters_)) =
      S (length filters_)
  ∧ (∀ i, filters_ !! i = Some (Some f) →
          AddNetworkFilters (Some f) (RemoveNetworkFilters (Some f) filters_) !! i =
            Some nullptr).
Proof.
  unfold AddNetworkFilters. split; [|split; [|split]].
  - rewrite remove_over_app. done.
  - rewrite live_app, live_remove. done.
  - rewrite length_app, RemoveNetworkFilters_length. simpl. lia.
  - intros i Hi.
    rewrite lookup_app_l
      by (rewrite RemoveNetworkFilters_length; by eapply lookup_lt_Some).
    rewrite RemoveNetworkFilters_lookup.
    assert (@lookup nat ptr (list ptr) _ i filters_ = Some (Some f)) as ->
      by exact Hi.
    simpl. by rewrite decide_True.
Qed.

Lemma remove_then_add_moves_to_end_witness :
  AddNetworkFilters (Some 1) (RemoveNetworkFilters (Some 1) [Some 1; Some 2]) !! 0 =
    Some nullptr.
Proof.
  destruct (remove_then_add_moves_to_end 1 None [Some 1; Some 2])
    as (_ & _ & _ & Hold).
  apply Hold. reflexivity.
Defined.

(** X4: the registry never shrinks: after any schedule of adds, removes
    and completions its length is the length it started with plus the
    number of adds; removes reclaim nothing. *)
Theorem registry_grows_by_adds (handle : option Error → handled)
    (sched : list action) (s : run_state) :
  length (filters_ (run_with handle sched s)) =
    length (filters_ s) + adds sched.
Proof.
  revert s. induction sched as [|a sched IH]; intros s; simpl; [lia|].
  unfold run_with in *. rewrite IH.
  destruct a as [p | p | r]; simpl.
  - unfold AddNetworkFilters. rewrite length_app. simpl. lia.
  - by rewrite RemoveNetworkFilters_length.
  - destruct (status s); try done.
    destruct (handle r); [|done].
    by destruct (StepNetworkFilter (filters_ s) (S it)).
Qed.

End RegistryAlgebra.

(** ** The chain under any schedule: what is called, and how it ends *)

Section ChainCompleteness.
Import Registry Chain ChainHistory.

Lemma calls_of_app (t u : list event) :
  calls_of (t ++ u) = calls_of t ++ calls_of u.
Proof. apply omap_app. Qed.

Lemma settle_count_app (t u : list event) :
  settle_count (t ++ u) = settle_count t + settle_count u.
Proof. unfold settle_count. by rewrite filter_app, length_app. Qed.

Lemma calls_of_elem (t : list event) (j : nat) (f : NetworkFilters) :
  (j, f) ∈ calls_of t ↔ EvOnFilter j f ∈ t.
Proof.
  unfold calls_of. rewrite list_elem_of_omap. split.
  - intros (ev & Hin & Hev). destruct ev; try discriminate.
    injection Hev as -> ->. done.
  - intros Hin. by exists (EvOnFilter j f).
Qed.

Lemma all_called_app (reg : list ptr) (seen : list (nat * NetworkFilters))
    (t u : list event) :
  all_called reg seen (t ++ u) ↔
  all_called reg seen t ∧ all_called (replay reg t) (seen ++ calls_of t) u.
Proof.
  revert reg seen. induction t as [|ev t IH]; intros reg seen; simpl.
  - rewrite app_nil_r. tauto.
  - destruct ev; simpl; rewrite ?IH, <- ?app_assoc; simpl; tauto.
Qed.

(** No live entry from [r] on means no live entry at any such position. *)
Lemma no_live_from (l : list ptr) (r j : nat) (f : NetworkFilters) :
  live (drop r l) = [] → r ≤ j → l !! j ≠ Some (Some f).
Proof.
  intros Hnil Hle Hj.
  assert (drop r l !! (j - r) = Some (Some f)) as Hd.
  { rewrite lookup_drop. by replace (r + (j - r)) with j by lia. }
  apply list_elem_of_lookup_2 in Hd.
  assert (f ∈ live (drop r l)) as Hin.
  { unfold live. apply list_elem_of_omap. by exists (Some f). }
  rewrite Hnil in Hin. by apply elem_of_nil in Hin.
Qed.

(** A tombstoning leaves live only what was live. *)
Lemma remove_lookup_live (p : ptr) (l : list ptr) (j : nat) (f : NetworkFilters) :
  RemoveNetworkFilters p l !! j = Some (Some f) → l !! j = Some (Some f).
Proof.
  rewrite RemoveNetworkFilters_lookup.
  destruct (l !! j) as [elem|]; simpl; [|done].
  case_decide; [discriminate | done].
Qed.

(** One call of [StepNetworkFilter] from the start of the next scan. *)
Lemma StepNetworkFilter_thorough (l : list ptr) (r : nat)
    (seen : list (nat * NetworkFilters)) :
  r ≤ length l →
  (∀ j f, j < r → l !! j = Some (Some f) → (j, f) ∈ seen) →
  let '(evs, st) := StepNetworkFilter l r in
  resume_from r evs ≤ length l
  ∧ (∀ j f, j < resume_from r evs → l !! j = Some (Some f) →
            (j, f) ∈ seen ++ calls_of evs)
  ∧ all_called l seen evs.
Proof.
  intros Hr Hseen.
  destruct (StepNetworkFilter_cases l r)
    as [(pos & f & -> & Hle & Hpos & Hskip & _) | [-> Hnil]]; simpl.
  - split; [by apply lookup_lt_Some in Hpos|]. split; [|done].
    intros j g Hj Hg. apply elem_of_app.
    destruct (decide (j < r)) as [Hlt|Hge]; [left; by apply Hseen|].
    right. apply list_elem_of_singleton.
    destruct (decide (j = pos)) as [->|Hne].
    + assert (Some (Some g) = Some (Some f)) as [= ->]
        by (etrans; [symmetry; exact Hg | exact Hpos]).
      done.
    + assert (Some (Some g) = Some nullptr) as Habs
        by (etrans; [symmetry; exact Hg | apply Hskip; lia]).
      discriminate Habs.
  - split; [done|]. split; [|split; [|done]].
    + intros j g Hj Hg. rewrite app_nil_r. by apply Hseen.
    + intros j g Hg.
      destruct (decide (j < r)) as [Hlt|Hge]; [by apply Hseen|].
      exfalso. eapply (no_live_from l r j g); [done | lia | done].
Qed.

Lemma start_thorough (filters_0 : list ptr) :
  thorough filters_0 (start filters_0).
Proof.
  unfold thorough, start, resume_pos.
  pose proof (StepNetworkFilter_thorough filters_0 0 []) as H.
  destruct (StepNetworkFilter filters_0 0) as [evs st]. simpl in *.
  apply H; [lia|]. intros j f Hj. lia.
Qed.

Lemma step_thorough (handle : option Error → handled)
    (filters_0 : list ptr) (s : run_state) (a : action) :
  disciplined filters_0 s → thorough filters_0 s →
  thorough filters_0 (step_with handle s a).
Proof.
  unfold disciplined, thorough, resume_pos.
  intros (Hreg & _ & Hres & _) (Hlen & Hseen & Hall).
  destruct a as [p | p | r]; simpl.
  - rewrite resume_from_app, calls_of_app, all_called_app, <- Hreg. simpl.
    rewrite app_nil_r. unfold AddNetworkFilters at 1 2. rewrite length_app.
    split; [simpl; lia|]. split; [|done].
    intros j f Hj Hf. apply Hseen; [done|].
    rewrite lookup_app_l in Hf; [done|].
    eapply Nat.lt_le_trans; [exact Hj | exact Hlen].
  - rewrite resume_from_app, calls_of_app, all_called_app, <- Hreg. simpl.
    rewrite app_nil_r, RemoveNetworkFilters_length.
    split; [done|]. split; [|done].
    intros j f Hj Hf. apply Hseen; [done|]. by eapply remove_lookup_live.
  - destruct (status s) as [it f | | e] eqn:Hst; [|by split_and!..].
    destruct (handle r) as [|e]; simpl.
    + pose proof (StepNetworkFilter_thorough (filters_ s) (S it)
                    (calls_of (trace s))) as H.
      pose proof (Hres it f eq_refl) as Hr.
      rewrite Hr in Hlen, Hseen. specialize (H Hlen Hseen).
      destruct (StepNetworkFilter (filters_ s) (S it)) as [evs st]. simpl.
      rewrite resume_from_app, calls_of_app, all_called_app, <- Hreg, Hr.
      destruct H as (Hlen' & Hseen' & Hall'). done.
    + rewrite resume_from_app, calls_of_app, all_called_app, <- Hreg. simpl.
      rewrite app_nil_r. done.
Qed.

Lemma run_thorough (handle : option Error → handled)
    (filters_0 : list ptr) (sched : list action) :
  thorough filters_0 (run_with handle sched (start filters_0)).
Proof.
  unfold run_with. induction sched as [|a sched IH] using rev_ind; simpl.
  - apply start_thorough.
  - rewrite foldl_app. simpl. apply step_thorough; [|done].
    apply (run_disciplined handle).
Qed.

(** X5: in a run during which no filter is added, with removes and
    completions in any order, whenever [Finalize] is called every entry
    of the registry that is live at that moment has been called by this
    run at its position: the run resolves only after the last live
    filter, none is skipped.  (The iterator of a step is read before the
    lock is taken; with no add in between it names the same node
    whenever it is read.) *)
Theorem finalize_after_every_live_filter
    (handle : option Error → handled)
    (filters_0 : list ptr) (sched : list action)
    (t1 t2 : list event) (j : nat) (f : NetworkFilters) :
  adds sched = 0 →
  trace (run_with handle sched (start filters_0)) = t1 ++ EvFinalize :: t2 →
  replay filters_0 t1 !! j = Some (Some f) →
  EvOnFilter j f ∈ t1.
Proof.
  intros _ Htrace Hlive.
  destruct (run_thorough handle filters_0 sched) as (_ & _ & Hall).
  rewrite Htrace in Hall.
  apply all_called_app in Hall as [_ Hall]. simpl in Hall.
  destruct Hall as [Hall _].
  apply calls_of_elem. by apply Hall.
Qed.

Lemma finalize_after_every_live_filter_witness :
  EvOnFilter 2 3 ∈
    [EvLock; EvOnFilter 0 1; EvHandleNetworkFuture 0; EvUnlock;
     EvLock; EvRemove (Some 2); EvUnlock;
     EvLock; EvOnFilter 2 3; EvHandleNetworkFuture 2; EvUnlock;
     EvLock; EvUnlock].
Proof.
  apply (finalize_after_every_live_filter HandleNetworkFuture
           [Some 1; Some 2; Some 3]
           [Remove (Some 2); Complete None; Complete None]
           _ [EvResolveWith] 2 3); reflexivity.
Defined.

End ChainCompleteness.

(** ** How a run ends, and what it can still do *)

Section ChainOutcome.
Import Registry Chain ChainHistory.

Lemma start_settled_as (l : list ptr) : settled_as (start l).
Proof.
  unfold settled_as, start.
  destruct (StepNetworkFilter_cases l 0) as [(pos & f & -> & _) | [-> _]];
    simpl; done.
Qed.

Lemma step_settled_as (handle : option Error → handled)
    (s : run_state) (a : action) :
  settled_as s → settled_as (step_with handle s a).
Proof.
  unfold settled_as. intros Hs.
  destruct a as [p | p | r]; simpl.
  - rewrite finalize_count_app, settle_count_app. simpl.
    destruct (status s); destruct Hs as [-> ->]; done.
  - rewrite finalize_count_app, settle_count_app. simpl.
    destruct (status s); destruct Hs as [-> ->]; done.
  - destruct (status s) as [it f | | e] eqn:Hst; [|by rewrite Hst..].
    destruct Hs as [Hf Hc].
    destruct (handle r) as [|e]; simpl.
    + destruct (StepNetworkFilter_cases (filters_ s) (S it))
        as [(pos & g & -> & _) | [-> _]]; simpl;
        rewrite finalize_count_app, settle_count_app, Hf, Hc; done.
    + rewrite finalize_count_app, settle_count_app, Hf, Hc. done.
Qed.

Lemma run_settled_as (handle : option Error → handled)
    (sched : list action) (s : run_state) :
  settled_as s → settled_as (run_with handle sched s).
Proof.
  revert s. induction sched as [|a sched IH]; intros s Hs; simpl; [done|].
  apply IH. by apply step_settled_as.
Qed.

(** Calls move the start of the next scan forward, inside the registry. *)
Lemma ordered_from_bound (reg : list ptr) (r : nat) (t : list event) :
  ordered_from reg r t → r ≤ length reg →
  length (visited t) + r ≤ resume_from r t
  ∧ resume_from r t ≤ length (replay reg t).
Proof.
  revert reg r. induction t as [|ev t IH]; intros reg r Hord Hr; simpl.
  - unfold resume_from. simpl. lia.
  - destruct ev; simpl in Hord;
      try (apply (IH reg r Hord Hr)).
    + apply IH; [done|]. unfold AddNetworkFilters. rewrite length_app. lia.
    + apply IH; [done|]. by rewrite RemoveNetworkFilters_length.
    + destruct Hord as (Hle & Hpos & _ & Hord).
      apply lookup_lt_Some in Hpos.
      destruct (IH reg (S pos) Hord) as [H1 H2]; [exact Hpos|].
      unfold resume_from in *. simpl. split; [lia|done].
Qed.

(** X8: under any schedule a run calls at most as many filters as the
    registry has entries: every call uses up a position of its own. *)
Theorem calls_bounded_by_registry (handle : option Error → handled)
    (filters_0 : list ptr) (sched : list action) :
  let s := run_with handle sched (start filters_0) in
  length (visited (trace s)) ≤ length (filters_ s).
Proof.
  cbv zeta.
  destruct (run_disciplined handle filters_0 sched) as (Hreg & Hord & _).
  destruct (ordered_from_bound filters_0 0 _ Hord) as [H1 H2]; [lia|].
  rewrite Hreg. lia.
Qed.

(** The scan finds the same entry when entries are added behind it. *)
Lemma scan_app (rest more : list ptr) (it pos : nat) (f : NetworkFilters) :
  scan rest it = Some (pos, f) → scan (rest ++ more) it = Some (pos, f).
Proof.
  revert it. induction rest as [|[g|] rest IH]; intros it; simpl;
    [discriminate | done | apply IH].
Qed.

Lemma same_run_step (handle : option Error → handled)
    (s1 s2 : run_state) (a : action) :
  same_run s1 s2 → same_run (step_with handle s1 a) (step_with handle s2 a).
Proof.
  unfold same_run. intros (Hreg & Hst & Hvis).
  destruct a as [p | p | r]; simpl.
  - rewrite !visited_app, Hreg, Hst, Hvis. done.
  - rewrite !visited_app, Hreg, Hst, Hvis. done.
  - rewrite <- Hst, <- Hreg.
    destruct (status s1) as [it f | | e] eqn:Hst1; [|by rewrite Hst1..].
    destruct (handle r) as [|e]; simpl.
    + destruct (StepNetworkFilter (filters_ s1) (S it)) as [evs st]. simpl.
      rewrite !visited_app, Hvis. done.
    + rewrite !visited_app, Hvis. done.
Qed.

Lemma same_run_run (handle : option Error → handled)
    (sched : list action) (s1 s2 : run_state) :
  same_run s1 s2 →
  same_run (run_with handle sched s1) (run_with handle sched s2).
Proof.
  revert s1 s2. induction sched as [|a sched IH]; intros s1 s2 H; simpl; [done|].
  apply IH. by apply same_run_step.
Qed.

(** X9: when the registry has a live filter, adding a filter right after
    the first step of a run (the first live filter has been called and
    its future is outstanding) gives the same run as adding it right
    before the run starts: the same registry, the same calls in the same
    order, the same outcome, under the same schedule of later adds,
    removes and completions. *)
Theorem add_during_run_as_before (handle : option Error → handled)
    (filters_0 : list ptr) (p : ptr) (sched : list action) :
  live filters_0 ≠ [] →
  let during := run_with handle (Add p :: sched) (start filters_0) in
  let before := run_with handle sched (start (AddNetworkFilters p filters_0)) in
  filters_ during = filters_ before
  ∧ status during = status before
  ∧ visited (trace during) = visited (trace before).
Proof.
  intros Hlive. cbv zeta. simpl.
  apply (same_run_run handle sched). unfold same_run, start, StepNetworkFilter.
  rewrite !drop_0.
  destruct (scan filters_0 0) as [[pos f]|] eqn:Hscan.
  - assert (scan (AddNetworkFilters p filters_0) 0 = Some (pos, f)) as ->
      by (by apply scan_app).
    simpl. done.
  - apply scan_None in Hscan. done.
Qed.

Lemma add_during_run_as_before_witness :
  visited (trace (run_with HandleNetworkFuture [Add (Some 5); Complete None]
                           (start [Some 4]))) =
  visited (trace (run_with HandleNetworkFuture [Complete None]
                           (start (AddNetworkFilters (Some 5) [Some 4])))).
Proof.
  apply (add_during_run_as_before HandleNetworkFuture [Some 4] (Some 5)
           [Complete None]).
  discriminate.
Defined.

End ChainOutcome.

(** ** The success path of the chain *)

Section ChainSuccess.
Import Registry Chain ChainHistory.

(** X10: when every live filter of an untouched registry succeeds, the
    run calls all of them, each once, in registration order, then calls
    [Finalize] once and resolves the promise, which is settled that one
    time only. *)
Theorem all_filters_succeed (filters_0 : list ptr) :
  let s := run (replicate (length (live filters_0)) (Complete None))
               (start filters_0) in
  status s = Resolved
  ∧ visited (trace s) = live filters_0
  ∧ finalize_count (trace s) = 1
  ∧ settle_count (trace s) = 1.
Proof.
  cbv zeta. destruct (chain_all_succeed filters_0) as (Hst & Hvis & Hfin).
  split; [done|]. split; [done|]. split; [done|].
  pose proof (run_settled_as HandleNetworkFuture
                (replicate (length (live filters_0)) (Complete None))
                _ (start_settled_as filters_0)) as H.
  unfold settled_as in H. unfold run in Hst. rewrite Hst in H. tauto.
Qed.

End ChainSuccess.

(** ** The life of the sinks *)

Section SinkLife.
Import Sink SinkHistory Init.


Lemma detached_app (l k : list sink_event) :
  detached (l ++ k) = detached l ++ detached k.
Proof. apply omap_app. Qed.


(** X11: a second get on a future returned by [Attach] or [Detach]
    returns what the first returned and changes nothing: the commit of an
    operation runs at most once. *)
Theorem get_twice (st st' : Impl) (fut : nat) (r : variant_type) :
  get fut st = Some (st', r) → get fut st' = Some (st', r).
Proof.
  unfold get.
  destruct (asyncs st !! fut) as [d|] eqn:Hd; [|discriminate].
  destruct (df_value d) as [r0|] eqn:Hv.
  - intros [= <- <-]. by rewrite Hd, Hv.
  - destruct (calls st !! df_future d) as [[name args [results|]]|]; try discriminate.
    destruct (then_ results (df_video d) st) as [st1 r1] eqn:Hthen.
    assert (asyncs st1 = asyncs st) as Hsame.
    { unfold then_ in Hthen.
      destruct (negb (holds_alternative_Error results));
        injection Hthen as <- _; done. }
    intros [= <- <-]. simpl.
    rewrite list_lookup_insert_eq
      by (rewrite Hsame; by eapply lookup_lt_Some).
    done.
Qed.

Lemma get_twice_witness :
  let st := resolve 0 monostate (fst (Attach 70 fresh)) in
  ∃ st', get 0 st = Some (st', monostate)
         ∧ get 0 st' = Some (st', monostate)
         ∧ sink_log st' = [SinkAssign (Some 0)].
Proof.
  cbv zeta. eexists. split; [reflexivity|]. split; [|reflexivity].
  apply get_twice with (st := resolve 0 monostate (fst (Attach 70 fresh))).
  reflexivity.
Defined.

(** X12: the held sink follows the order of the gets, not the order of
    the calls: of two pending commits whose remote calls both succeeded,
    the one whose future is waited on last decides the held sink. *)
Theorem last_get_wins (st : Impl) (fut1 fut2 : nat) (d1 d2 : deferred)
    (c1 c2 : remote_call) :
  fut1 ≠ fut2 →
  asyncs st !! fut1 = Some d1 → df_value d1 = None →
  asyncs st !! fut2 = Some d2 → df_value d2 = None →
  calls st !! df_future d1 = Some c1 → rc_result c1 = Some monostate →
  calls st !! df_future d2 = Some c2 → rc_result c2 = Some monostate →
  video_ (run [FutureGet fut1; FutureGet fut2] st) = df_video d2
  ∧ video_ (run [FutureGet fut2; FutureGet fut1] st) = df_video d1.
Proof.
  intros Hne Hd1 Hv1 Hd2 Hv2 Hc1 Hr1 Hc2 Hr2.
  assert (∀ futa futb da db ca cb,
            futa ≠ futb →
            asyncs st !! futa = Some da → df_value da = None →
            asyncs st !! futb = Some db → df_value db = None →
            calls st !! df_future da = Some ca → rc_result ca = Some monostate →
            calls st !! df_future db = Some cb → rc_result cb = Some monostate →
            video_ (run [FutureGet futa; FutureGet futb] st) = df_video db) as H.
  { clear. intros futa futb da db ca cb Hne Hda Hva Hdb Hvb Hca Hra Hcb Hrb.
    simpl.
    destruct (get_runs_then st futa da ca monostate Hda Hva Hca Hra)
      as (sta & Hgeta & _).
    rewrite Hgeta.
    assert (asyncs sta !! futb = Some db ∧ calls sta = calls st) as [Hdb' Hcs].
    { unfold get in Hgeta. rewrite Hda, Hva, Hca in Hgeta.
      destruct ca as [name args res]. simpl in Hra. subst res.
      simpl in Hgeta. injection Hgeta as <-. simpl.
      by rewrite list_lookup_insert_ne. }
    rewrite <- Hcs in Hcb.
    destruct (get_runs_then sta futb db cb monostate Hdb' Hvb Hcb Hrb)
      as (stb & Hgetb & Hvid & _).
    by rewrite Hgetb. }
  split; [by eapply H | by eapply (H fut2 fut1)].
Qed.

Lemma last_get_wins_witness :
  let st := run [Issue (OpAttach 70); Issue (OpAttach 71);
                 EngineResolves 0 monostate; EngineResolves 1 monostate] fresh in
  video_ (run [FutureGet 0; FutureGet 1] st) = Some 1
  ∧ video_ (run [FutureGet 1; FutureGet 0] st) = Some 0.
Proof.
  cbv zeta.
  eapply (last_get_wins _ 0 1 (mkDeferred 0 (Some 0) None)
            (mkDeferred 1 (Some 1) None)); try reflexivity.
  discriminate.
Defined.

End SinkLife.

(** ** No sink is detached twice *)

Section SinkInvariant.
Import Sink SinkHistory Init.















(** X14: what [Initialize] leaves behind when it fails part of the way.
    With a player, the new element is held as soon as the constructor has
    been found, also when the construction or a later step fails; without
    one, or when the constructor is missing, the held sink is untouched.
    The JavaScript object is stored exactly when the construction
    succeeded, also when attaching a listener or registering a filter
    fails afterwards.  No sink is detached and no remote call or commit
    is queued. *)
Theorem Initialize_partial_state
    (env : engine) (player : option MediaPlayer) (st : Impl) :
  let '(st', (evs, result)) := Initialize env player st in
  video_ st' =
    match player with
    | Some _ =>
        if decide (shaka_Player_type env = Function)
        then Some (length (elements st)) else video_ st
    | None => video_ st
    end
  ∧ object_ st' =
      (if decide (shaka_Player_type env = Function) then
         match InvokeConstructor env (match player with Some _ => 1 | None => 0 end) with
         | monostate => true
         | holds_Error _ => object_ st
         end
       else object_ st)
  ∧ detached (sink_log st') = detached (sink_log st)
  ∧ calls st' = calls st
  ∧ asyncs st' = asyncs st.
Proof.
  unfold Initialize.
  destruct (decide (shaka_Player_type env = Function)) as [Hfun|Hno].
  - rewrite decide_False by (intros H; by apply H).
    destruct player as [p|]; simpl.
    + destruct (InvokeConstructor env 1); simpl.
      * destruct (AttachListeners env) as [evs' r']. simpl.
        by rewrite detached_app, app_nil_r.
      * by rewrite detached_app, app_nil_r.
    + destruct (InvokeConstructor env 0); simpl; [|done].
      by destruct (AttachListeners env) as [evs' r'].
  - rewrite decide_True by done. simpl. by destruct player.
Qed.

End SinkInvariant.

(** ** Destruction after a failed initialization *)

Section Teardown.
Import Sink SinkHistory Init.

(** X15: the destructor of an object that was only initialized.  It sends
    destroy to the engine, once, exactly when the constructor was found
    and the construction succeeded (also when a later step of the
    initialization failed), and waits for the answer whatever it is; and
    it detaches the element made for the player whenever the constructor
    was found, also when the construction itself failed. *)
Theorem destructor_after_Initialize
    (env : engine) (player : option MediaPlayer) (r : variant_type) :
  let final := destructor r (fst (Initialize env player fresh)) in
  calls final =
    (if decide (shaka_Player_type env = Function) then
       match InvokeConstructor env (match player with Some _ => 1 | None => 0 end) with
       | monostate => [mkCall "destroy" [] (Some r)]
       | holds_Error _ => []
       end
     else [])
  ∧ sink_log final =
      match player with
      | Some _ =>
          if decide (shaka_Player_type env = Function)
          then [SinkAssign (Some 0); SinkDetach 0] else []
      | None => []
      end.
Proof.
  cbv zeta. unfold Initialize.
  destruct (decide (shaka_Player_type env = Function)) as [Hfun|Hno].
  - rewrite decide_False by (intros H; by apply H).
    destruct player as [p|]; simpl.
    + destruct (InvokeConstructor env 1); simpl; [|done].
      by destruct (AttachListeners env).
    + destruct (InvokeConstructor env 0); simpl; [|done].
      by destruct (AttachListeners env).
  - rewrite decide_True by done. simpl. by destruct player.
Qed.

End Teardown.
